(** * Spatial augmentation of optical-flow samples (dataloader/augmentor.py)

    A shallow embedding of [FlowAugmentor.spatial_transform] and of
    [interpolate_holes_numpy].

    Conventions of the embedding.
    - A numpy array of shape (H, W, ...) is a list of H rows, each a list of
      W pixels.  Image pixels are RGB triples of 8-bit values, flow pixels
      are pairs (dx, dy), validity pixels are numbers.
    - Real-valued quantities (float32 / float64 in the source) are exact
      rationals [Q]; the statements below are about structure (shape,
      indexing, zeroing, sign).  The one place where rounding decides a
      result, the cast to float32 before the threshold of line 164, is
      modelled with its rounding ([np_float32]).
    - The random generator is replaced by the record of the values it
      returned in one call ([draws]); a statement "for every outcome of the
      random draws" quantifies over this record.
    - A Python exception is the result [None].
    - [cv2.resize], [2 ** x] and [scipy.interpolate.griddata] are library
      calls; they are parameters of the development, constrained only by
      what is stated as a hypothesis where it is used. *)

From Stdlib Require Import QArith Qround Qabs Qpower Lia Lqa.
From stdpp Require Import base list.

Close Scope Q_scope.
Open Scope nat_scope.

(** ** Arrays *)

Abbreviation arr A := (list (list A)).

(** [a.shape[0]] *)
Definition height {A} (a : arr A) : nat := length a.

(** [a.shape[1]] (of an array with at least one row) *)
Definition width {A} (a : arr A) : nat :=
  match a with
  | [] => 0
  | r :: _ => length r
  end.

(** [a] is a rectangular array of [h] rows and [w] columns. *)
Definition shape {A} (a : arr A) (h w : nat) : Prop :=
  length a = h ∧ Forall (λ r, length r = w) a.

(** [a[y, x]] *)
Definition at2 {A} (a : arr A) (y x : nat) : option A :=
  a !! y ≫= λ r, r !! x.

(** [np.pad(a, ((pad_t, pad_b), (pad_l, pad_r), ...), 'constant',
    constant_values=0)] *)
Definition np_pad {A} (zero : A) (pad_t pad_b pad_l pad_r : nat) (a : arr A)
  : arr A :=
  let w' := pad_l + width a + pad_r in
  replicate pad_t (replicate w' zero)
  ++ ((λ r, replicate pad_l zero ++ r ++ replicate pad_r zero) <$> a)
  ++ replicate pad_b (replicate w' zero).

(** [a[:, ::-1]] *)
Definition hflip {A} (a : arr A) : arr A := reverse <$> a.

(** [a[::-1, :]] *)
Definition vflip {A} (a : arr A) : arr A := reverse a.

(** [a[y0:y0+h, x0:x0+w]] *)
Definition crop {A} (y0 x0 h w : nat) (a : arr A) : arr A :=
  (λ r, take w (drop x0 r)) <$> take h (drop y0 a).

(** An elementwise operation on one array, and on two arrays of the same
    height and width. *)
Definition amap {A B} (f : A → B) (a : arr A) : arr B :=
  (λ r : list A, f <$> r) <$> a.

Definition azip {A B C} (f : A → B → C) (a : arr A) (b : arr B) : arr C :=
  zip_with (zip_with f) a b.

(** ** Pixels and numbers *)

Definition rgb : Type := Z * Z * Z.
Definition vec2 : Type := Q * Q.

Definition rgb0 : rgb := (0, 0, 0)%Z.
Definition vec0 : vec2 := (0, 0)%Q.

(** [np.maximum(a, b)] *)
Definition np_maximum (a b : Q) : Q := if Qle_bool a b then b else a.

(** [np.clip(x, lo, None)] *)
Definition np_clip_lo (x lo : Q) : Q := np_maximum x lo.

(** [a < b] on floats *)
Definition Qltb (a b : Q) : bool := negb (Qle_bool b a).

(** Rounding to the nearest integer, ties to the even one. *)
Definition round_half_even (q : Q) : Z :=
  let f := Qfloor q in
  match ((q - inject_Z f) ?= (1 # 2))%Q with
  | Lt => f
  | Gt => (f + 1)%Z
  | Eq => if Z.even f then f else (f + 1)%Z
  end.

(** The exponent [e] with [2 ** e <= q < 2 ** (e + 1)], for [q > 0]. *)
Definition ilog2 (q : Q) : Z :=
  let e := (Z.log2 (Qnum q) - Z.log2 (Zpos (Qden q)))%Z in
  if Qle_bool (2 ^ e) q then e else (e - 1)%Z.

(** The float32 nearest to [a > 0] (ties to even): 24 significant bits,
    the spacing of the subnormals below [2 ** -126]; a result from
    [2 ** 128] on stands for [inf]. *)
Definition float32_abs (a : Q) : Q :=
  let e := Z.max (ilog2 a) (-126) in
  let ulp := (2 ^ (e - 23))%Q in
  let r := (inject_Z (round_half_even (a / ulp)) * ulp)%Q in
  if Qle_bool (2 ^ 128) r then (2 ^ 128)%Q else r.

(** [v.astype(np.float32)] for a number [v] *)
Definition np_float32 (v : Q) : Q :=
  if Qeq_bool v 0 then 0%Q
  else Qred (if Qle_bool 0 v then float32_abs (Qabs v)
             else (- float32_abs (Qabs v))%Q).

(** [v > 0.5] for a float32 [v] *)
Definition gt_half (v : Q) : bool := Qltb (1 # 2) v.

(** [b.astype(np.float32)] for a boolean *)
Definition bool_to_float (b : bool) : Q := if b then 1%Q else 0%Q.

(** The constant [1e-5] of line 173. *)
Definition eps : Q := (1 # 100000)%Q.

(** [(valid.astype(np.float32) > 0.5).astype(bool)] of line 174, where
    [valid] is the resized density, a float32 array already: the cast
    leaves it as it is. *)
Definition to_mask (valid : arr Q) : arr bool := amap gt_half valid.

(** [(valid.astype(np.float32) > 0.5).astype(bool)] of line 164, where
    [valid] is the mask given by the caller, of any numeric type. *)
Definition input_mask (valid : arr Q) : arr bool :=
  amap (λ v, gt_half (np_float32 v)) valid.

(** [x / d] on floats: [None] stands for the non-finite result (inf or
    NaN) of a division by zero. *)
Definition np_divide (x d : Q) : option Q :=
  if Qeq_bool d 0 then None else Some (x / d)%Q.

(** [flow[~valid] = 0] (the two arrays have the same height and width) *)
Definition zero_invalid (valid : arr bool) (flow : arr vec2) : arr vec2 :=
  azip (λ (b : bool) (p : vec2), if b then p else vec0) valid flow.

(** [flow * [cx, cy]] *)
Definition flow_mul (c : vec2) (flow : arr vec2) : arr vec2 :=
  amap (λ p : vec2, (p.1 * c.1, p.2 * c.2)%Q) flow.

(** [flow / dens[:, :, None]] *)
Definition flow_div (flow : arr vec2) (dens : arr Q) : arr vec2 :=
  azip (λ (p : vec2) (d : Q), (p.1 / d, p.2 / d)%Q) flow dens.

(** ** Configuration and random draws *)

Record FlowAugmentor : Type := {
  crop_size : nat * nat;
  min_scale : Q;
  max_scale : Q;
  spatial_aug_prob : Q;
  stretch_prob : Q;
  max_stretch : Q;
  do_flip : bool;
  h_flip_prob : Q;
  v_flip_prob : Q
}.

(** [FlowAugmentor.__init__] *)
Definition init (crop : nat * nat) (min_s max_s : Q) (flip : bool)
  : FlowAugmentor :=
  {| crop_size := crop;
     min_scale := min_s;
     max_scale := max_s;
     spatial_aug_prob := (8 # 10)%Q;
     stretch_prob := (8 # 10)%Q;
     max_stretch := (2 # 10)%Q;
     do_flip := flip;
     h_flip_prob := (5 # 10)%Q;
     v_flip_prob := (1 # 10)%Q |}.

(** The values returned by the random generator during one call, in the
    order of the calls: the unit samples behind the three
    [np.random.uniform], the four [np.random.rand], and the integers behind
    the two [np.random.randint]. *)
Record draws : Type := {
  u_scale : Q;
  r_stretch : Q;
  u_stretch_x : Q;
  u_stretch_y : Q;
  r_spatial : Q;
  r_hflip : Q;
  r_vflip : Q;
  n_y0 : nat;
  n_x0 : nat
}.

(** [np.random.uniform(lo, hi)], from the unit sample [u]. *)
Definition uniform (lo hi u : Q) : Q := (lo + (hi - lo) * u)%Q.

(** [np.random.randint(lo, hi)]: a value of [lo, hi), an error when the
    range is empty. *)
Definition randint (lo hi n : nat) : option nat :=
  if lo <? hi then Some (lo + n mod (hi - lo)) else None.

(** ** Library calls

    [pow2 x] is [2 ** x]; [resize_img], [resize_flow] and [resize_valid] are
    [cv2.resize(a, None, fx=fx, fy=fy, interpolation=cv2.INTER_LINEAR)] on an
    8-bit three-channel image, on a two-channel float array and on a
    one-channel float array; [dsize n f] is the length the resize gives to
    an axis of length [n] scaled by [f]. *)
Class Cv2 : Type := {
  pow2 : Q → Q;
  dsize : nat → Q → nat;
  resize_img : Q → Q → arr rgb → arr rgb;
  resize_flow : Q → Q → arr vec2 → arr vec2;
  resize_valid : Q → Q → arr Q → arr Q
}.

(** What the development assumes of the resize: the output extent is the
    scaled extent rounded to a nearest integer (so it is never more than one
    half below the exact product), and the output is a rectangular array of
    that extent. *)
Record Cv2Laws (L : Cv2) : Prop := {
  dsize_round : ∀ n f,
    (inject_Z (Z.of_nat n) * f - (1 # 2) <= inject_Z (Z.of_nat (dsize n f)))%Q;
  resize_img_shape : ∀ fx fy a h w,
    shape a h w → shape (resize_img fx fy a) (dsize h fy) (dsize w fx);
  resize_flow_shape : ∀ fx fy a h w,
    shape a h w → shape (resize_flow fx fy a) (dsize h fy) (dsize w fx);
  resize_valid_shape : ∀ fx fy a h w,
    shape a h w → shape (resize_valid fx fy a) (dsize h fy) (dsize w fx)
}.

(** Interpolating an array that is zero everywhere gives zero everywhere. *)
Definition resize_keeps_zero (L : Cv2) : Prop :=
  ∀ fx fy a,
    Forall (Forall (λ v, v == 0)%Q) a →
    Forall (Forall (λ v, v == 0)%Q) (resize_valid fx fy a).

(** ** [FlowAugmentor.spatial_transform] *)

Definition sample : Type := arr rgb * arr rgb * arr vec2 * arr Q.
Definition result : Type := arr rgb * arr rgb * arr vec2 * arr bool.

(** Lines 133-146: padding up to the crop size. *)
Definition pad_amounts (cfg : FlowAugmentor) (img1 : arr rgb) : nat * nat :=
  let pad_b :=
    if height img1 <? (crop_size cfg).1
    then (crop_size cfg).1 - height img1 else 0 in
  let pad_r :=
    if width img1 <? (crop_size cfg).2
    then (crop_size cfg).2 - width img1 else 0 in
  (pad_b, pad_r).

Definition pad_stage (cfg : FlowAugmentor) (s : sample) : sample :=
  let '(img1, img2, flow, valid) := s in
  let pad_t := 0 in
  let pad_l := 0 in
  let '(pad_b, pad_r) := pad_amounts cfg img1 in
  if negb (pad_b =? 0) || negb (pad_r =? 0) then
    (np_pad rgb0 pad_t pad_b pad_l pad_r img1,
     np_pad rgb0 pad_t pad_b pad_l pad_r img2,
     np_pad vec0 pad_t pad_b pad_l pad_r flow,
     np_pad 0%Q pad_t pad_b pad_l pad_r valid)
  else s.

(** Lines 179-181: the horizontal flip of the two images and of the flow. *)
Definition h_flip (s : arr rgb * arr rgb * arr vec2)
  : arr rgb * arr rgb * arr vec2 :=
  let '(img1, img2, flow) := s in
  (hflip img1, hflip img2, flow_mul (-1 # 1, 1 # 1)%Q (hflip flow)).

(** Lines 184-186: the vertical flip. *)
Definition v_flip (s : arr rgb * arr rgb * arr vec2)
  : arr rgb * arr rgb * arr vec2 :=
  let '(img1, img2, flow) := s in
  (vflip img1, vflip img2, flow_mul (1 # 1, -1 # 1)%Q (vflip flow)).

(** Lines 188-196: the offset of the crop window along one axis. *)
Definition crop_offset (cur crop_len n : nat) : option nat :=
  if cur =? crop_len then Some 0 else randint 0 (cur - crop_len) n.

Section Transform.
Context {L : Cv2}.

(** Lines 150-152; the division by [float(ht)] raises on zero. *)
Definition min_scale_of (cfg : FlowAugmentor) (ht wd : nat) : option Q :=
  if (ht =? 0) || (wd =? 0) then None
  else Some (np_maximum
    (inject_Z (Z.of_nat ((crop_size cfg).1 + 1)) / inject_Z (Z.of_nat ht))
    (inject_Z (Z.of_nat ((crop_size cfg).2 + 1)) / inject_Z (Z.of_nat wd))).

(** Lines 154-162: the pair [(scale_x, scale_y)] for a lower bound
    [min_s]. *)
Definition sample_scale (cfg : FlowAugmentor) (d : draws) (min_s : Q)
  : Q * Q :=
  let scale := pow2 (uniform (min_scale cfg) (max_scale cfg) (u_scale d)) in
  let '(scale_x, scale_y) :=
    if Qltb (r_stretch d) (stretch_prob cfg) then
      ((scale * pow2 (uniform (- max_stretch cfg) (max_stretch cfg)
                              (u_stretch_x d)))%Q,
       (scale * pow2 (uniform (- max_stretch cfg) (max_stretch cfg)
                              (u_stretch_y d)))%Q)
    else (scale, scale) in
  (np_clip_lo scale_x min_s, np_clip_lo scale_y min_s).

(** The validity density after the resize (lines 170 and 172). *)
Definition density (scale_x scale_y : Q) (valid : arr bool) : arr Q :=
  resize_valid scale_x scale_y (amap bool_to_float valid).

(** The flow handed to the resize (lines 169 and 171). *)
Definition resized_flow (scale_x scale_y : Q) (flow : arr vec2)
    (valid : arr bool) : arr vec2 :=
  resize_flow scale_x scale_y (zero_invalid valid flow).

(** Line 173: the resized flow, rescaled and divided by the density plus
    [1e-5]. *)
Definition normalized_flow (scale_x scale_y : Q) (flow : arr vec2)
    (valid : arr bool) : arr vec2 :=
  flow_div (flow_mul (scale_x, scale_y) (resized_flow scale_x scale_y flow valid))
           (amap (λ v, (v + eps)%Q) (density scale_x scale_y valid)).

(** Lines 166-175: the resampling branch. *)
Definition resample (scale_x scale_y : Q)
    (s : arr rgb * arr rgb * arr vec2 * arr bool) : result :=
  let '(img1, img2, flow, valid) := s in
  let img1 := resize_img scale_x scale_y img1 in
  let img2 := resize_img scale_x scale_y img2 in
  let flow := normalized_flow scale_x scale_y flow valid in
  let valid := density scale_x scale_y valid in
  let valid := to_mask valid in
  let flow := zero_invalid valid flow in
  (img1, img2, flow, valid).

(** Lines 177-186: the flips.  The validity mask is not an operand. *)
Definition flip_stage (cfg : FlowAugmentor) (d : draws)
    (s : arr rgb * arr rgb * arr vec2) : arr rgb * arr rgb * arr vec2 :=
  if do_flip cfg then
    let s := if Qltb (r_hflip d) (h_flip_prob cfg) then h_flip s else s in
    if Qltb (r_vflip d) (v_flip_prob cfg) then v_flip s else s
  else s.

(** Lines 188-202: the crop. *)
Definition crop_stage (cfg : FlowAugmentor) (d : draws) (s : result)
  : option result :=
  let '(img1, img2, flow, valid) := s in
  let '(ch, cw) := crop_size cfg in
  y0 ← crop_offset (height img1) ch (n_y0 d);
  x0 ← crop_offset (width img1) cw (n_x0 d);
  Some (crop y0 x0 ch cw img1, crop y0 x0 ch cw img2,
        crop y0 x0 ch cw flow, crop y0 x0 ch cw valid).

(** Lines 164-175: the state before the flips. *)
Definition resample_stage (cfg : FlowAugmentor) (d : draws)
    (scale : Q * Q) (s : sample) : result :=
  let '(img1, img2, flow, valid) := s in
  let valid := input_mask valid in
  if Qltb (r_spatial d) (spatial_aug_prob cfg)
  then resample scale.1 scale.2 (img1, img2, flow, valid)
  else (img1, img2, flow, valid).

Definition spatial_transform (cfg : FlowAugmentor) (d : draws) (s : sample)
  : option result :=
  let s := pad_stage cfg s in
  let ht := height s.1.1.1 in
  let wd := width s.1.1.1 in
  min_s ← min_scale_of cfg ht wd;
  let scale := sample_scale cfg d min_s in
  let '(img1, img2, flow, valid) := resample_stage cfg d scale s in
  let '(img1, img2, flow) := flip_stage cfg d (img1, img2, flow) in
  crop_stage cfg d (img1, img2, flow, valid).
End Transform.

(** ** Vocabulary of the statements *)

(** The outcome of the three coin tosses of one call. *)
Definition resampled (cfg : FlowAugmentor) (d : draws) : bool :=
  Qltb (r_spatial d) (spatial_aug_prob cfg).

Definition h_flipped (cfg : FlowAugmentor) (d : draws) : bool :=
  do_flip cfg && Qltb (r_hflip d) (h_flip_prob cfg).

Definition v_flipped (cfg : FlowAugmentor) (d : draws) : bool :=
  do_flip cfg && Qltb (r_vflip d) (v_flip_prob cfg).

(** The four arrays of a sample have [h] rows and [w] columns. *)
Definition aligned {V} (r : arr rgb * arr rgb * arr vec2 * arr V)
    (h w : nat) : Prop :=
  shape r.1.1.1 h w ∧ shape r.1.1.2 h w ∧ shape r.1.2 h w ∧ shape r.2 h w.

(** Every pixel of [a] satisfies [P]. *)
Definition all_px {A} (P : A → Prop) (a : arr A) : Prop := Forall (Forall P) a.

(** The flow is (0, 0) wherever the mask is false. *)
Definition masked (flow : arr vec2) (valid : arr bool) : Prop :=
  ∀ y x, at2 valid y x = Some false → at2 flow y x = Some vec0.

(** [a'] has [h'] rows and [w'] columns, agrees with the [h] by [w] array
    [a] on the top-left [h] by [w] block and is [zero] elsewhere. *)
Definition padded_from {A} (zero : A) (h w : nat) (a a' : arr A)
    (h' w' : nat) : Prop :=
  shape a' h' w' ∧
  ∀ y x, y < h' → x < w' →
    at2 a' y x = if (y <? h) && (x <? w) then at2 a y x else Some zero.

(** The sign change of a flow vector under the flips that were applied. *)
Definition flip_sign (hf vf : bool) (p : vec2) : vec2 :=
  (if hf then (- p.1)%Q else p.1, if vf then (- p.2)%Q else p.2).

(** The postcondition "flow is zero wherever the output mask is false", for
    every configuration, every sample of matching shapes and every outcome
    of the draws. *)
Definition zero_where_invalid (L : Cv2) : Prop :=
  ∀ cfg d img1 img2 flow valid h w,
    0 < h → 0 < (crop_size cfg).1 → 0 < (crop_size cfg).2 →
    shape img1 h w → shape img2 h w → shape flow h w → shape valid h w →
    ∀ out, spatial_transform cfg d (img1, img2, flow, valid) = Some out →
      masked out.1.2 out.2.

(** ** A reference instance of the library calls

    Linear interpolation with half-pixel centres and clamped borders, on
    exact rationals.  It is used to run the model on concrete samples; no
    general statement below depends on it. *)
Module Reference.

(** Rounding to the nearest integer, ties to the even one. *)
Definition cv_round (q : Q) : Z :=
  let f := Qfloor q in
  match ((q - inject_Z f) ?= (1 # 2))%Q with
  | Lt => f
  | Gt => (f + 1)%Z
  | Eq => if Z.even f then f else (f + 1)%Z
  end.

Definition cv_dsize (n : nat) (f : Q) : nat :=
  Z.to_nat (cv_round (inject_Z (Z.of_nat n) * f)).

(** Source index and weight of the right neighbour for destination index
    [i] along an axis of length [n] scaled by [f]. *)
Definition src_pos (n : nat) (f : Q) (i : nat) : nat * Q :=
  let s := ((inject_Z (Z.of_nat i) + (1 # 2)) / f - (1 # 2))%Q in
  let k := Qfloor s in
  if (k <? 0)%Z then (0, 0%Q)
  else if (Z.of_nat n - 1 <=? k)%Z then (n - 1, 0%Q)
  else (Z.to_nat k, (s - inject_Z k)%Q).

Definition lerp (w a b : Q) : Q := ((1 - w) * a + w * b)%Q.

Definition tabulate {A} (h w : nat) (f : nat → nat → A) : arr A :=
  (λ y, (λ x, f y x) <$> seq 0 w) <$> seq 0 h.

Definition bilinear (fx fy : Q) (a : arr Q) : arr Q :=
  tabulate (cv_dsize (height a) fy) (cv_dsize (width a) fx) (λ i j,
    let '(y, wy) := src_pos (height a) fy i in
    let '(x, wx) := src_pos (width a) fx j in
    let px yy xx := default 0%Q (at2 a yy xx) in
    Qred (lerp wy (lerp wx (px y x) (px y (x + 1)))
                  (lerp wx (px (y + 1) x) (px (y + 1) (x + 1))))).

Definition bilinear_flow (fx fy : Q) (a : arr vec2) : arr vec2 :=
  azip pair (bilinear fx fy (amap fst a)) (bilinear fx fy (amap snd a)).

Definition to_u8 (q : Q) : Z := Z.max 0 (Z.min 255 (cv_round q)).

Definition bilinear_img (fx fy : Q) (a : arr rgb) : arr rgb :=
  let chan (f : rgb → Z) := bilinear fx fy (amap (λ p, inject_Z (f p)) a) in
  azip (λ rg b, (to_u8 rg.1, to_u8 rg.2, to_u8 b))
       (azip pair (chan (λ p, p.1.1)) (chan (λ p, p.1.2)))
       (chan (λ p, p.2)).

(** A quadratic approximation of [2 ** x] around 0. *)
Definition pow2_approx (x : Q) : Q :=
  (1 + (6931 # 10000) * x + (2402 # 10000) * x * x)%Q.

#[export] Instance cv2 : Cv2 := {|
  pow2 := pow2_approx;
  dsize := cv_dsize;
  resize_img := bilinear_img;
  resize_flow := bilinear_flow;
  resize_valid := bilinear
|}.

End Reference.

(** ** [interpolate_holes_numpy] *)

(** [np.mgrid[0:h, 0:w]], as the array of the coordinate pairs (y, x). *)
Definition mgrid (h w : nat) : arr (nat * nat) :=
  (λ y, (λ x, (y, x)) <$> seq 0 w) <$> seq 0 h.

(** [a[mask]]: the pixels of [a] where [mask] holds, in row-major order. *)
Definition select_row {A} (mask : list bool) (row : list A) : list A :=
  snd <$> filter (λ bp : bool * A, bp.1 = true) (zip mask row).

Definition select {A} (mask : arr bool) (a : arr A) : list A :=
  concat (zip_with select_row mask a).

(** [mask.shape == a.shape[:2]] *)
Definition same_shape {A B} (a : arr A) (b : arr B) : bool :=
  (length a =? length b)
  && forallb (λ rs : list A * list B, length rs.1 =? length rs.2) (zip a b).

(** [a[mask] = vals]: the values are written in row-major order to the
    pixels where [mask] holds; an error when there are too few or too many
    of them. *)
Fixpoint assign_row {A} (mask : list bool) (row vals : list A)
  : option (list A * list A) :=
  match mask, row with
  | b :: mask', p :: row' =>
      if b then
        match vals with
        | v :: vals' =>
            '(out, rest) ← assign_row mask' row' vals'; Some (v :: out, rest)
        | [] => None
        end
      else '(out, rest) ← assign_row mask' row' vals; Some (p :: out, rest)
  | _, _ => Some ([], vals)
  end.

Fixpoint assign_rows {A} (mask : arr bool) (a : arr A) (vals : list A)
  : option (arr A * list A) :=
  match mask, a with
  | m :: mask', r :: a' =>
      '(r', rest) ← assign_row m r vals;
      '(out, rest') ← assign_rows mask' a' rest;
      Some (r' :: out, rest')
  | _, _ => Some ([], vals)
  end.

Definition assign_where {A} (mask : arr bool) (a : arr A) (vals : list A)
  : option (arr A) :=
  '(out, rest) ← assign_rows mask a vals;
  match rest with
  | [] => Some out
  | _ :: _ => None
  end.

Section Holes.
(** [X]: the element type of the input image, [M]: of the mask, [P]: a
    pixel of the float32 image (a scalar for a 2D image, the vector of
    its channels for a 3D one). *)
Context {X M P : Type}.
(** [astype(np.float32)] and [astype(bool)] on one pixel *)
Variable cast : X → P.
Variable nonzero : M → bool.
(** Line 48 on one pixel: every NaN component becomes 0. *)
Variable nan_to_zero : P → P.
(** [griddata(points, values, xi, method='linear')]; [None] when it
    raises. *)
Variable griddata :
  list (nat * nat) → list P → list (nat * nat) → option (list P).

Definition interpolate_holes (image : arr X) (valid_mask : arr M)
  : option (arr P) :=
  let image := amap cast image in
  let valid_mask := amap nonzero valid_mask in
  if same_shape valid_mask image then
    let grid := mgrid (height image) (width image) in
    let valid_coords := select valid_mask grid in
    let valid_values := select valid_mask image in
    let invalid_coords := select (amap negb valid_mask) grid in
    interpolated_values ←
      griddata valid_coords valid_values invalid_coords;
    interpolated_image ←
      assign_where (amap negb valid_mask) image interpolated_values;
    Some (amap nan_to_zero interpolated_image)
  else None.
End Holes.

Section HolesFloat.
(** [F]: float32 values, with the NaN test and the constant 0. *)
Context {X M F : Type}.
Variable to_float32 : X → F.
Variable nonzero : M → bool.
Variable isnan : F → bool.
Variable zero : F.

Definition fix_nan (v : F) : F := if isnan v then zero else v.

(** The function on a 2D image. *)
Definition interpolate_holes_numpy
    (griddata : list (nat * nat) → list F → list (nat * nat)
                → option (list F))
    (image : arr X) (valid_mask : arr M) : option (arr F) :=
  interpolate_holes to_float32 nonzero fix_nan griddata image valid_mask.

(** The function on a 3D image, a pixel being the list of its channels. *)
Definition interpolate_holes_numpy_3d
    (griddata : list (nat * nat) → list (list F) → list (nat * nat)
                → option (list (list F)))
    (image : arr (list X)) (valid_mask : arr M) : option (arr (list F)) :=
  interpolate_holes (fmap to_float32) nonzero (fmap fix_nan) griddata
                    image valid_mask.
End HolesFloat.

(** ** Concrete samples *)
Module Examples.

(** A 1 by 2 crop with the default parameters of the constructor. *)
Definition cfg : FlowAugmentor := init (1, 2) (-2 # 10)%Q (5 # 10)%Q true.

(** A 3 by 3 crop, larger than the samples below. *)
Definition cfg_large : FlowAugmentor :=
  init (3, 3) (-2 # 10)%Q (5 # 10)%Q true.

Definition img_a : arr rgb := [[(10, 20, 30); (40, 50, 60)]]%Z.
Definition img_b : arr rgb := [[(11, 21, 31); (41, 51, 61)]]%Z.

(** The second pixel is invalid and its stored flow is already zero. *)
Definition clean : sample :=
  (img_a, img_b, [[(1, 1); (0, 0)]]%Q, [[1; 0]]%Q).

(** The second pixel is invalid and carries a stale flow vector. *)
Definition stale : sample :=
  (img_a, img_b, [[(1, 1); (2, -1)]]%Q, [[1; 0]]%Q).

(** No pixel is valid. *)
Definition blind : sample :=
  (img_a, img_b, [[(1, 1); (2, -1)]]%Q, [[0; 0]]%Q).

Definition mk_draws (r_spatial r_hflip r_vflip : Q) : draws :=
  {| u_scale := (1 # 2)%Q; r_stretch := (9 # 10)%Q;
     u_stretch_x := (1 # 2)%Q; u_stretch_y := (1 # 2)%Q;
     r_spatial := r_spatial; r_hflip := r_hflip; r_vflip := r_vflip;
     n_y0 := 3; n_x0 := 5 |}.

(** Resampling skipped, no flip. *)
Definition d_plain : draws := mk_draws (9 # 10) (6 # 10) (5 # 10).
(** Resampling skipped, horizontal flip only. *)
Definition d_hflip : draws := mk_draws (9 # 10) (1 # 10) (5 # 10).
(** Resampling applied, no flip. *)
Definition d_resample : draws := mk_draws (1 # 10) (6 # 10) (5 # 10).

(** float32 values: a rational or NaN. *)
Definition f32 : Type := option Q.
Definition to_f32 (z : Z) : f32 := Some (inject_Z z).
Definition f32_isnan (v : f32) : bool :=
  match v with
  | Some _ => false
  | None => true
  end.
Definition z_nonzero (z : Z) : bool := negb (z =? 0)%Z.

(** An interpolator that finds every query point outside the convex hull
    of the data and so returns NaN for it. *)
Definition griddata_outside (points : list (nat * nat)) (values : list f32)
    (xi : list (nat * nat)) : option (list f32) :=
  Some ((λ _, None) <$> xi).

Definition holes_image : arr Z := [[5; 6]; [7; 9]]%Z.
Definition holes_mask : arr Z := [[1; 0]; [1; 1]]%Z.

End Examples.

(** ** The photometric stages (lines 66-96) and [__call__] *)

(** The photometric attributes that the constructor sets beside the spatial
    ones (lines 68-69). *)
Record PhotoParams : Type := {
  asymmetric_color_aug_prob : Q;
  eraser_aug_prob : Q
}.

(** Lines 68-69 of [FlowAugmentor.__init__]. *)
Definition photo_init : PhotoParams :=
  {| asymmetric_color_aug_prob := (2 # 10)%Q;
     eraser_aug_prob := (5 # 10)%Q |}.

(** [i] lies in the slice [lo : lo + len]. *)
Definition in_slice (lo len i : nat) : bool := (lo <=? i) && (i <? lo + len).

(** [a[y0:y0+dy, x0:x0+dx, :] = c]; the slice is clipped to the array. *)
Definition fill_rect {A} (y0 x0 dy dx : nat) (c : A) (a : arr A) : arr A :=
  imap (λ y r,
    imap (λ x p, if in_slice y0 dy y && in_slice x0 dx x then c else p) r) a.

Definition channel_sum (f : rgb → Z) (px : list rgb) : Z :=
  foldr (λ p acc, (f p + acc)%Z) 0%Z px.

(** [np.mean(img2.reshape(-1, 3), axis=0)] as it is stored into the 8-bit
    image: the mean of each channel, truncated. *)
Definition mean_color (img2 : arr rgb) : rgb :=
  let px := concat img2 in
  let n := Z.of_nat (length px) in
  ((channel_sum (λ p, p.1.1) px / n)%Z,
   (channel_sum (λ p, p.1.2) px / n)%Z,
   (channel_sum (λ p, p.2) px / n)%Z).

(** The integers behind the four [np.random.randint] of one iteration of
    the loop of [eraser_transform], in the order of the calls. *)
Record patch_draws : Type := {
  e_x0 : nat;
  e_y0 : nat;
  e_dx : nat;
  e_dy : nat
}.

(** The values drawn by one call of [eraser_transform]: the coin, the
    integer behind [np.random.randint(1, 3)], and the draws of each
    iteration. *)
Record eraser_draws : Type := {
  r_eraser : Q;
  n_patches : nat;
  patch_of : nat → patch_draws
}.

(** Lines 76-80: one iteration of the loop. *)
Definition erase_patch (ht wd : nat) (mean : rgb) (p : patch_draws)
    (img2 : arr rgb) : option (arr rgb) :=
  x0 ← randint 0 wd (e_x0 p);
  y0 ← randint 0 ht (e_y0 p);
  dx ← randint 50 100 (e_dx p);
  dy ← randint 50 100 (e_dy p);
  Some (fill_rect y0 x0 dy dx mean img2).

(** Lines 75-80: the loop, over the draws of its iterations. *)
Fixpoint erase_loop (ht wd : nat) (mean : rgb) (ps : list patch_draws)
    (img2 : arr rgb) : option (arr rgb) :=
  match ps with
  | [] => Some img2
  | p :: ps' =>
      img2' ← erase_patch ht wd mean p img2;
      erase_loop ht wd mean ps' img2'
  end.

(** [FlowAugmentor.eraser_transform] (lines 71-82). *)
Definition eraser_transform (pp : PhotoParams) (ed : eraser_draws)
    (img1 img2 : arr rgb) : option (arr rgb * arr rgb) :=
  let ht := height img1 in
  let wd := width img1 in
  if Qltb (r_eraser ed) (eraser_aug_prob pp) then
    let mean := mean_color img2 in
    k ← randint 1 3 (n_patches ed);
    img2' ← erase_loop ht wd mean (patch_of ed <$> seq 0 k) img2;
    Some (img1, img2')
  else Some (img1, img2).

(** [self.photo_aug], the [ColorJitter] of torchvision, applied to an image
    through PIL: [jitter] is the outcome of the random draws of one
    application. *)
Class Jitter : Type := {
  jitter : Type;
  photo_aug : jitter → arr rgb → arr rgb
}.

(** [np.concatenate([a, b], axis=0)]; an error when the widths differ. *)
Definition np_concatenate0 {A} (a b : arr A) : option (arr A) :=
  if (height a =? 0) || (height b =? 0) || (width a =? width b)
  then Some (a ++ b) else None.

(** [np.split(a, 2, axis=0)]; an error when the height is odd. *)
Definition np_split2 {A} (a : arr A) : option (arr A * arr A) :=
  if Nat.even (height a)
  then Some (take (height a / 2) a, drop (height a / 2) a)
  else None.

Section Photometric.
Context {J : Jitter}.

(** The values drawn by one call of [color_transform]: the coin and the
    outcomes of the (at most two) applications of the jitter. *)
Record color_draws : Type := {
  r_asym : Q;
  j_first : jitter;
  j_second : jitter
}.

(** [FlowAugmentor.color_transform] (lines 84-96). *)
Definition color_transform (pp : PhotoParams) (cd : color_draws)
    (img1 img2 : arr rgb) : option (arr rgb * arr rgb) :=
  if Qltb (r_asym cd) (asymmetric_color_aug_prob pp) then
    let img1 := photo_aug (j_first cd) img1 in
    let img2 := photo_aug (j_second cd) img2 in
    Some (img1, img2)
  else
    image_stack ← np_concatenate0 img1 img2;
    let image_stack := photo_aug (j_first cd) image_stack in
    np_split2 image_stack.

(** The values drawn by one call of the augmentor. *)
Record call_draws : Type := {
  d_color : color_draws;
  d_eraser : eraser_draws;
  d_spatial : draws
}.

(** [FlowAugmentor.__call__] (lines 205-213); [np.ascontiguousarray] does
    not change the value of an array. *)
Definition call {L : Cv2} (cfg : FlowAugmentor) (pp : PhotoParams)
    (cd : call_draws) (s : sample) : option result :=
  let '(img1, img2, flow, valid) := s in
  '(img1, img2) ← color_transform pp (d_color cd) img1 img2;
  '(img1, img2) ← eraser_transform pp (d_eraser cd) img1 img2;
  spatial_transform cfg (d_spatial cd) (img1, img2, flow, valid).
End Photometric.


(** The jitter returns an image of the extent of its argument. *)
Definition keeps_shape (J : Jitter) : Prop :=
  ∀ j a h w, shape a h w → shape (photo_aug j a) h w.

(** The rectangle of one iteration of the eraser loop contains (y, x). *)
Definition in_patch (ht wd : nat) (p : patch_draws) (y x : nat) : bool :=
  in_slice (e_y0 p `mod` ht) (50 + e_dy p `mod` 50) y
  && in_slice (e_x0 p `mod` wd) (50 + e_dx p `mod` 50) x.

(** ** More concrete samples *)
Module PhotoExamples.

(** A brightness shift: the outcome of the draw is the offset added to
    every channel, the result clamped to 8 bits. *)
Definition shift (j : Z) (p : rgb) : rgb :=
  let c v := Z.max 0 (Z.min 255 (v + j)) in (c p.1.1, c p.1.2, c p.2).

#[export] Instance brightness : Jitter := {|
  jitter := Z;
  photo_aug := λ j a, amap (shift j) a
|}.

Definition img_c : arr rgb :=
  [[(10, 20, 30); (40, 50, 60)]; [(70, 80, 90); (100, 110, 120)]]%Z.
Definition img_d : arr rgb :=
  [[(1, 2, 3); (4, 6, 8)]; [(7, 8, 10); (12, 12, 19)]]%Z.

Definition patch0 : patch_draws :=
  {| e_x0 := 1; e_y0 := 3; e_dx := 7; e_dy := 120 |}.

(** Coin taken, one patch. *)
Definition ed_on : eraser_draws :=
  {| r_eraser := (1 # 10)%Q; n_patches := 4; patch_of := λ _, patch0 |}.
(** Coin not taken. *)
Definition ed_off : eraser_draws :=
  {| r_eraser := (7 # 10)%Q; n_patches := 4; patch_of := λ _, patch0 |}.

(** Symmetric and asymmetric colour draws. *)
Definition cd_sym : color_draws :=
  {| r_asym := (1 # 2)%Q; j_first := 5%Z; j_second := (-3)%Z |}.
Definition cd_asym : color_draws :=
  {| r_asym := (1 # 10)%Q; j_first := 5%Z; j_second := (-3)%Z |}.

Definition flow_c : arr vec2 := [[(1, 1); (2, -1)]; [(0, 3); (1, 0)]]%Q.
Definition valid_c : arr Q := [[1; 0]; [1; 1]]%Q.

Definition sample_c : sample := (img_c, img_d, flow_c, valid_c).

Definition cfg_small : FlowAugmentor :=
  init (1, 1) (-2 # 10)%Q (5 # 10)%Q true.
Definition cfg_same : FlowAugmentor :=
  init (2, 2) (-2 # 10)%Q (5 # 10)%Q true.

Definition cd_all : call_draws :=
  {| d_color := cd_sym; d_eraser := ed_on; d_spatial := Examples.d_plain |}.

End PhotoExamples.

(** ** Vocabulary of the further statements *)

(** The pixel (y, x) lies in a rectangle written by the call of
    [eraser_transform]: none when the coin is not taken, else the
    rectangles of the one or two iterations. *)
Definition erased (pp : PhotoParams) (ed : eraser_draws) (ht wd y x : nat)
  : bool :=
  Qltb (r_eraser ed) (eraser_aug_prob pp)
  && existsb (λ q, in_patch ht wd q y x)
       (patch_of ed <$> seq 0 (1 + n_patches ed `mod` 2)).

(** Every channel of the pixel lies between [lo] and [hi]. *)
Definition channels_in (lo hi : Z) (p : rgb) : Prop :=
  (lo ≤ p.1.1 ≤ hi ∧ lo ≤ p.1.2 ≤ hi ∧ lo ≤ p.2 ≤ hi)%Z.

Section WindowGeometry.
Context {L : Cv2}.

(** The scale factors of a call on an [h] by [w] sample. *)
Definition scale_of (cfg : FlowAugmentor) (d : draws) (h w : nat) : Q * Q :=
  let h1 := h `max` (crop_size cfg).1 in
  let w1 := w `max` (crop_size cfg).2 in
  sample_scale cfg d (np_maximum
    (inject_Z (Z.of_nat ((crop_size cfg).1 + 1)) / inject_Z (Z.of_nat h1))
    (inject_Z (Z.of_nat ((crop_size cfg).2 + 1)) / inject_Z (Z.of_nat w1))).

(** The extent of the arrays when the crop is taken. *)
Definition working_extent (cfg : FlowAugmentor) (d : draws) (h w : nat)
  : nat * nat :=
  let h1 := h `max` (crop_size cfg).1 in
  let w1 := w `max` (crop_size cfg).2 in
  if resampled cfg d
  then (dsize h1 (scale_of cfg d h w).2, dsize w1 (scale_of cfg d h w).1)
  else (h1, w1).

(** The top-left corner of the crop window. *)
Definition crop_origin (cfg : FlowAugmentor) (d : draws) (h w : nat)
  : nat * nat :=
  let h2 := (working_extent cfg d h w).1 in
  let w2 := (working_extent cfg d h w).2 in
  (if h2 =? (crop_size cfg).1 then 0
   else n_y0 d `mod` (h2 - (crop_size cfg).1),
   if w2 =? (crop_size cfg).2 then 0
   else n_x0 d `mod` (w2 - (crop_size cfg).2)).
End WindowGeometry.

(** * Properties *)

(** ** Shapes and indexing *)

Section ArrayFacts.
Context {A B C : Type}.
Implicit Types (a : arr A) (b : arr B).

Lemma shape_row a h w y r : shape a h w → a !! y = Some r → length r = w.
Proof. intros [_ Hr] Hy. by apply (Forall_lookup_1 _ _ _ _ Hr Hy). Qed.

Lemma shape_width a h w : shape a h w → 0 < h → width a = w.
Proof.
  intros [Hl Hr] Hh. destruct a as [|r a]; simpl in *; [lia|].
  by inversion Hr.
Qed.

Lemma shape_height a h w : shape a h w → height a = h.
Proof. by intros [Hl _]. Qed.

Lemma at2_lt a h w y x : shape a h w → y < h → x < w → is_Some (at2 a y x).
Proof.
  intros Hs Hy Hx. unfold at2.
  destruct (lookup_lt_is_Some_2 a y) as [r Hr]; [destruct Hs; lia|].
  rewrite Hr. simpl. apply lookup_lt_is_Some_2.
  by rewrite (shape_row _ _ _ _ _ Hs Hr).
Qed.

Lemma at2_Some_lt a h w y x v :
  shape a h w → at2 a y x = Some v → y < h ∧ x < w.
Proof.
  intros Hs. unfold at2. destruct (a !! y) as [r|] eqn:Hr; [|done].
  simpl. intros Hx. split.
  - destruct Hs as [<- _]. by eapply lookup_lt_Some.
  - rewrite <- (shape_row _ _ _ _ _ Hs Hr). by eapply lookup_lt_Some.
Qed.

Lemma shape_amap (f : A → B) a h w : shape a h w → shape (amap f a) h w.
Proof.
  intros [Hl Hr]. split; unfold amap.
  - by rewrite length_fmap.
  - apply Forall_fmap. eapply Forall_impl; [exact Hr|].
    intros r Hlen. simpl. by rewrite length_fmap.
Qed.

Lemma at2_amap (f : A → B) a y x : at2 (amap f a) y x = f <$> at2 a y x.
Proof.
  unfold at2, amap. rewrite list_lookup_fmap.
  destruct (a !! y) as [r|]; simpl; [|done]. by rewrite list_lookup_fmap.
Qed.

Lemma shape_azip (f : A → B → C) a b h w :
  shape a h w → shape b h w → shape (azip f a b) h w.
Proof.
  intros [Hl Hr] [Hl' Hr']. split; unfold azip.
  - rewrite length_zip_with. lia.
  - apply Forall_forall. intros r Hin.
    apply list_elem_of_lookup in Hin as [i Hi].
    rewrite lookup_zip_with in Hi.
    destruct (a !! i) as [ra|] eqn:Ha; [|done].
    destruct (b !! i) as [rb|] eqn:Hb; [|done].
    simpl in Hi. injection Hi as <-. rewrite length_zip_with.
    rewrite (Forall_lookup_1 _ _ _ _ Hr Ha).
    rewrite (Forall_lookup_1 _ _ _ _ Hr' Hb). lia.
Qed.

Lemma at2_azip (f : A → B → C) a b y x :
  at2 (azip f a b) y x
  = at2 a y x ≫= λ u, at2 b y x ≫= λ v, Some (f u v).
Proof.
  unfold at2, azip. rewrite lookup_zip_with.
  destruct (a !! y) as [ra|]; [|done].
  destruct (b !! y) as [rb|]; simpl.
  - by rewrite lookup_zip_with.
  - by destruct (ra !! x).
Qed.
End ArrayFacts.

Section Geometry.
Context {A : Type}.
Implicit Types (a : arr A).

Lemma shape_hflip a h w : shape a h w → shape (hflip a) h w.
Proof.
  intros [Hl Hr]. split; unfold hflip.
  - by rewrite length_fmap.
  - apply Forall_fmap. eapply Forall_impl; [exact Hr|].
    intros r Hlen. simpl. by rewrite length_reverse.
Qed.

Lemma shape_vflip a h w : shape a h w → shape (vflip a) h w.
Proof.
  intros [Hl Hr]. split; unfold vflip.
  - by rewrite length_reverse.
  - by apply Forall_reverse.
Qed.

Lemma at2_hflip a h w y x :
  shape a h w → x < w → at2 (hflip a) y x = at2 a y (w - S x).
Proof.
  intros Hs Hx. unfold at2, hflip. rewrite list_lookup_fmap.
  destruct (a !! y) as [r|] eqn:Hr; simpl; [|done].
  rewrite reverse_lookup; rewrite (shape_row _ _ _ _ _ Hs Hr); done.
Qed.

Lemma at2_vflip a h w y x :
  shape a h w → y < h → at2 (vflip a) y x = at2 a (h - S y) x.
Proof.
  intros [Hl Hr] Hy. unfold at2, vflip.
  rewrite reverse_lookup; rewrite Hl; done.
Qed.

Lemma hflip_involutive a : hflip (hflip a) = a.
Proof.
  unfold hflip. rewrite <- list_fmap_compose.
  rewrite <- (list_fmap_id a) at 2. apply list_fmap_ext.
  intros i r _. simpl. apply reverse_involutive.
Qed.

Lemma shape_crop a h w y0 x0 ch cw :
  shape a h w → y0 + ch ≤ h → x0 + cw ≤ w →
  shape (crop y0 x0 ch cw a) ch cw.
Proof.
  intros [Hl Hr] Hy Hx. split; unfold crop.
  - rewrite length_fmap, length_take, length_drop. lia.
  - apply Forall_fmap, Forall_take, Forall_drop.
    eapply Forall_impl; [exact Hr|].
    intros r Hlen. simpl in *. rewrite length_take, length_drop. lia.
Qed.

Lemma at2_crop a y0 x0 ch cw y x :
  y < ch → x < cw → at2 (crop y0 x0 ch cw a) y x = at2 a (y0 + y) (x0 + x).
Proof.
  intros Hy Hx. unfold at2, crop.
  rewrite list_lookup_fmap, lookup_take, lookup_drop.
  destruct (decide (y < ch)); [|lia].
  destruct (a !! (y0 + y)) as [r|]; simpl; [|done].
  rewrite lookup_take, lookup_drop.
  destruct (decide (x < cw)); [done|lia].
Qed.

Lemma shape_np_pad (z : A) a h w pb pr :
  shape a h w → 0 < h → shape (np_pad z 0 pb 0 pr a) (h + pb) (w + pr).
Proof.
  intros Hs Hh. pose proof (shape_width _ _ _ Hs Hh) as Hw.
  destruct Hs as [Hl Hr]. unfold np_pad. rewrite Hw. simpl. split.
  - rewrite length_app, length_fmap, length_replicate. lia.
  - apply Forall_app. split.
    + apply Forall_fmap. eapply Forall_impl; [exact Hr|].
      intros r Hlen. simpl in *. rewrite length_app, length_replicate. lia.
    + apply Forall_replicate. by rewrite length_replicate.
Qed.

Lemma at2_np_pad (z : A) a h w pb pr y x :
  shape a h w → 0 < h → y < h + pb → x < w + pr →
  at2 (np_pad z 0 pb 0 pr a) y x
  = if (y <? h) && (x <? w) then at2 a y x else Some z.
Proof.
  intros Hs Hh Hy Hx. pose proof (shape_width _ _ _ Hs Hh) as Hw.
  unfold at2, np_pad. rewrite Hw. simpl.
  destruct (Nat.ltb_spec y h) as [Hyh|Hyh]; simpl.
  - destruct (lookup_lt_is_Some_2 a y) as [r Hr]; [destruct Hs; lia|].
    rewrite lookup_app_l by (rewrite length_fmap; destruct Hs; lia).
    rewrite list_lookup_fmap, Hr. simpl.
    pose proof (shape_row _ _ _ _ _ Hs Hr) as Hlen.
    destruct (Nat.ltb_spec x w) as [Hxw|Hxw].
    + by rewrite lookup_app_l by lia.
    + rewrite lookup_app_r by lia. apply lookup_replicate_2. lia.
  - rewrite lookup_app_r by (rewrite length_fmap; destruct Hs; lia).
    rewrite length_fmap.
    rewrite (lookup_replicate_2 pb (replicate (w + pr) z))
      by (destruct Hs; lia).
    simpl. apply lookup_replicate_2. lia.
Qed.
End Geometry.

(** ** Padding (lines 133-146) *)

Lemma padded_from_id {A} (z : A) h w (a : arr A) :
  shape a h w → padded_from z h w a a h w.
Proof.
  intros Hs. split; [done|]. intros y x Hy Hx.
  destruct (Nat.ltb_spec y h); [|lia]. destruct (Nat.ltb_spec x w); [done|lia].
Qed.

Lemma padded_from_np_pad {A} (z : A) h w (a : arr A) pb pr :
  shape a h w → 0 < h →
  padded_from z h w a (np_pad z 0 pb 0 pr a) (h + pb) (w + pr).
Proof.
  intros Hs Hh. split; [by apply shape_np_pad|].
  intros y x Hy Hx. by apply at2_np_pad.
Qed.

Lemma pad_amounts_max cfg (img1 : arr rgb) h w :
  shape img1 h w → 0 < h →
  h + (pad_amounts cfg img1).1 = h `max` (crop_size cfg).1 ∧
  w + (pad_amounts cfg img1).2 = w `max` (crop_size cfg).2.
Proof.
  intros Hs Hh. unfold pad_amounts.
  rewrite (shape_height _ _ _ Hs), (shape_width _ _ _ Hs Hh). simpl.
  destruct (Nat.ltb_spec h (crop_size cfg).1),
           (Nat.ltb_spec w (crop_size cfg).2); lia.
Qed.

Lemma pad_stage_padded cfg img1 img2 flow valid h w :
  0 < h →
  shape img1 h w → shape img2 h w → shape flow h w → shape valid h w →
  let h' := h `max` (crop_size cfg).1 in
  let w' := w `max` (crop_size cfg).2 in
  ∃ img1' img2' flow' valid',
    pad_stage cfg (img1, img2, flow, valid) = (img1', img2', flow', valid')
    ∧ padded_from rgb0 h w img1 img1' h' w'
    ∧ padded_from rgb0 h w img2 img2' h' w'
    ∧ padded_from vec0 h w flow flow' h' w'
    ∧ padded_from 0%Q h w valid valid' h' w'.
Proof.
  intros Hh H1 H2 Hf Hv h' w'.
  destruct (pad_amounts_max cfg img1 h w H1 Hh) as [Eh Ew].
  assert (Hpadded : ∀ A (z : A) (a : arr A) pb pr,
            shape a h w → h + pb = h' → w + pr = w' →
            padded_from z h w a (np_pad z 0 pb 0 pr a) h' w').
  { intros A z a pb pr Ha <- <-. by apply padded_from_np_pad. }
  unfold pad_stage.
  destruct (pad_amounts cfg img1) as [pb pr] eqn:Epad. simpl in Eh, Ew.
  destruct (negb (pb =? 0) || negb (pr =? 0)) eqn:Hpad.
  - eexists _, _, _, _. split; [reflexivity|].
    repeat (split; [by apply Hpadded|]). by apply Hpadded.
  - apply orb_false_iff in Hpad as [Hb Hr].
    apply negb_false_iff, Nat.eqb_eq in Hb, Hr. subst pb pr.
    assert (h' = h) as Eh' by lia. assert (w' = w) as Ew' by lia.
    eexists _, _, _, _. split; [reflexivity|].
    rewrite Eh', Ew' in *.
    repeat (split; [by apply padded_from_id|]). by apply padded_from_id.
Qed.

Lemma padded_mask_false (valid valid' : arr Q) h w h' w' y x :
  padded_from 0%Q h w valid valid' h' w' →
  y < h' → x < w' → h ≤ y ∨ w ≤ x →
  at2 (to_mask valid') y x = Some false.
Proof.
  intros [_ Hat] Hy Hx Hout. unfold to_mask.
  rewrite at2_amap, (Hat y x Hy Hx).
  destruct (Nat.ltb_spec y h), (Nat.ltb_spec x w); simpl; try done; lia.
Qed.

Lemma padded_input_mask_false (valid valid' : arr Q) h w h' w' y x :
  padded_from 0%Q h w valid valid' h' w' →
  y < h' → x < w' → h ≤ y ∨ w ≤ x →
  at2 (input_mask valid') y x = Some false.
Proof.
  intros [_ Hat] Hy Hx Hout. unfold input_mask.
  rewrite at2_amap, (Hat y x Hy Hx).
  destruct (Nat.ltb_spec y h), (Nat.ltb_spec x w); simpl; try done; lia.
Qed.

(** C9: when the crop is taller (wider) than the input, the two images, the
    flow and the validity mask are extended at the bottom (right) only, up
    to the crop size, with zeros: the padded arrays have
    max(h, crop_h) rows and max(w, crop_w) columns, so a dimension that
    already meets the crop size is left alone; every pixel of the original
    h-by-w block stays at its index; every other pixel is zero and its
    validity reads as false (under the threshold at 0.5, with or without
    the cast to float32). *)
Theorem pad_stage_bottom_right cfg img1 img2 flow valid h w :
  0 < h →
  shape img1 h w → shape img2 h w → shape flow h w → shape valid h w →
  let h' := h `max` (crop_size cfg).1 in
  let w' := w `max` (crop_size cfg).2 in
  ∃ img1' img2' flow' valid',
    pad_stage cfg (img1, img2, flow, valid) = (img1', img2', flow', valid')
    ∧ padded_from rgb0 h w img1 img1' h' w'
    ∧ padded_from rgb0 h w img2 img2' h' w'
    ∧ padded_from vec0 h w flow flow' h' w'
    ∧ padded_from 0%Q h w valid valid' h' w'
    ∧ ((crop_size cfg).1 ≤ h → h' = h)
    ∧ ((crop_size cfg).2 ≤ w → w' = w)
    ∧ ∀ y x, y < h' → x < w' → h ≤ y ∨ w ≤ x →
        at2 (to_mask valid') y x = Some false
        ∧ at2 (input_mask valid') y x = Some false.
Proof.
  intros Hh H1 H2 Hf Hv h' w'.
  destruct (pad_stage_padded cfg img1 img2 flow valid h w Hh H1 H2 Hf Hv)
    as (i1 & i2 & f & v & E & P1 & P2 & P3 & P4).
  exists i1, i2, f, v. repeat (split; [done|]).
  split; [subst h'; lia|]. split; [subst w'; lia|].
  intros y x Hy Hx Hout. split.
  - by apply (padded_mask_false valid _ h w h' w').
  - by apply (padded_input_mask_false valid _ h w h' w').
Qed.

Ltac solve_shape := split; [reflexivity | repeat constructor].

Lemma pad_stage_bottom_right_witness :
  ∃ img1' img2' flow' valid',
    pad_stage Examples.cfg_large Examples.stale
    = (img1', img2', flow', valid')
    ∧ padded_from rgb0 1 2 Examples.img_a img1' 3 3
    ∧ padded_from rgb0 1 2 Examples.img_b img2' 3 3
    ∧ padded_from vec0 1 2 [[(1, 1); (2, -1)]]%Q flow' 3 3
    ∧ padded_from 0%Q 1 2 [[1; 0]]%Q valid' 3 3
    ∧ (3 ≤ 1 → 3 = 1)
    ∧ (3 ≤ 2 → 3 = 2)
    ∧ ∀ y x, y < 3 → x < 3 → 1 ≤ y ∨ 2 ≤ x →
        at2 (to_mask valid') y x = Some false
        ∧ at2 (input_mask valid') y x = Some false.
Proof.
  apply (pad_stage_bottom_right Examples.cfg_large Examples.img_a
           Examples.img_b [[(1, 1); (2, -1)]]%Q [[1; 0]]%Q 1 2);
    first [lia | solve_shape].
Defined.

(** ** Scale sampling (lines 148-162) *)

Lemma np_maximum_ge_l a b : (a <= np_maximum a b)%Q.
Proof.
  unfold np_maximum. destruct (Qle_bool a b) eqn:E.
  - by apply Qle_bool_iff.
  - apply Qle_refl.
Qed.

Lemma np_maximum_ge_r a b : (b <= np_maximum a b)%Q.
Proof.
  unfold np_maximum. destruct (Qle_bool a b) eqn:E.
  - apply Qle_refl.
  - apply Qlt_le_weak, Qnot_le_lt. intros H.
    apply Qle_bool_iff in H. congruence.
Qed.

Lemma Qltb_lt a b : Qltb a b = true ↔ (a < b)%Q.
Proof.
  unfold Qltb. rewrite negb_true_iff. split.
  - intros E. apply Qnot_le_lt. intros H. apply Qle_bool_iff in H. congruence.
  - intros H. destruct (Qle_bool b a) eqn:E; [|done].
    apply Qle_bool_iff in E. exfalso. by apply (Qlt_not_le _ _ H).
Qed.

Lemma gt_half_false v : (v <= 1 # 2)%Q → gt_half v = false.
Proof.
  intros H. unfold gt_half. destruct (Qltb (1 # 2) v) eqn:E; [|done].
  apply Qltb_lt in E. exfalso. by apply (Qlt_not_le _ _ E).
Qed.

Lemma Qdiv_le_mult (a f : Q) (n : nat) :
  0 < n → (a / inject_Z (Z.of_nat n) <= f)%Q →
  (a <= inject_Z (Z.of_nat n) * f)%Q.
Proof.
  intros Hn Hle.
  assert (Hpos : (0 < inject_Z (Z.of_nat n))%Q).
  { change 0%Q with (inject_Z 0). rewrite <- Zlt_Qlt. lia. }
  pose proof (Qmult_le_compat_r _ _ _ Hle (Qlt_le_weak _ _ Hpos)) as Hm.
  rewrite (Qmult_comm f) in Hm.
  eapply Qle_trans; [|exact Hm].
  unfold Qdiv. rewrite <- Qmult_assoc, (Qmult_comm (/ _)), Qmult_inv_r.
  - rewrite Qmult_1_r. apply Qle_refl.
  - intros E. rewrite E in Hpos. by apply (Qlt_irrefl 0).
Qed.

Section ScaleFacts.
Context {L : Cv2} (HL : Cv2Laws L).

Lemma sample_scale_ge cfg d m :
  (m <= (sample_scale cfg d m).1)%Q ∧ (m <= (sample_scale cfg d m).2)%Q.
Proof.
  unfold sample_scale.
  destruct (Qltb (r_stretch d) (stretch_prob cfg)); simpl;
    split; apply np_maximum_ge_r.
Qed.

Lemma dsize_gt (c n : nat) (f : Q) :
  0 < n →
  (inject_Z (Z.of_nat (c + 1)) / inject_Z (Z.of_nat n) <= f)%Q →
  c < dsize n f.
Proof.
  intros Hn Hle. apply Qdiv_le_mult in Hle; [|done].
  pose proof (dsize_round L HL n f) as Hr.
  assert (Hq : (inject_Z (Z.of_nat c) < inject_Z (Z.of_nat (dsize n f)))%Q).
  { eapply Qlt_le_trans; [|exact Hr].
    eapply Qlt_le_trans;
      [|apply Qplus_le_compat; [exact Hle|apply Qle_refl]].
    rewrite Nat2Z.inj_add, inject_Z_plus.
    change (inject_Z (Z.of_nat 1)) with 1%Q.
    generalize (inject_Z (Z.of_nat c)). intros q. lra. }
  rewrite <- Zlt_Qlt in Hq. lia.
Qed.

Lemma min_scale_of_Some cfg ht wd :
  0 < ht → 0 < wd →
  min_scale_of cfg ht wd = Some (np_maximum
    (inject_Z (Z.of_nat ((crop_size cfg).1 + 1)) / inject_Z (Z.of_nat ht))
    (inject_Z (Z.of_nat ((crop_size cfg).2 + 1)) / inject_Z (Z.of_nat wd))).
Proof.
  intros Hh Hw. unfold min_scale_of.
  destruct (Nat.eqb_spec ht 0); [lia|]. destruct (Nat.eqb_spec wd 0); [lia|].
  done.
Qed.

Lemma crop_offset_Some cur c n :
  c ≤ cur → ∃ o, crop_offset cur c n = Some o ∧ o + c ≤ cur.
Proof.
  intros Hle. unfold crop_offset, randint.
  destruct (Nat.eqb_spec cur c) as [->|Hne].
  - exists 0. split; [done|lia].
  - destruct (Nat.ltb_spec 0 (cur - c)) as [Hlt|Hge]; [|lia].
    eexists. split; [done|].
    assert (n `mod` (cur - c) < cur - c) by (apply Nat.mod_upper_bound; lia).
    rewrite Nat.sub_0_r. lia.
Qed.
End ScaleFacts.

(** ** The stages of [spatial_transform] *)

Lemma pad_stage_aligned cfg (s : sample) h w :
  0 < h → aligned s h w →
  aligned (pad_stage cfg s) (h `max` (crop_size cfg).1)
          (w `max` (crop_size cfg).2).
Proof.
  destruct s as [[[img1 img2] flow] valid]. intros Hh (H1 & H2 & Hf & Hv).
  cbn [fst snd] in *.
  destruct (pad_stage_padded cfg img1 img2 flow valid h w Hh H1 H2 Hf Hv)
    as (i1 & i2 & f & v & -> & [S1 _] & [S2 _] & [S3 _] & [S4 _]).
  done.
Qed.

Section StageFacts.
Context {L : Cv2} (HL : Cv2Laws L).

Lemma resample_aligned fx fy (s : result) h w :
  aligned s h w → aligned (resample fx fy s) (dsize h fy) (dsize w fx).
Proof.
  destruct s as [[[img1 img2] flow] valid]. intros (H1 & H2 & Hf & Hv).
  simpl in *. unfold aligned, resample. simpl.
  assert (Hd : shape (density fx fy valid) (dsize h fy) (dsize w fx)).
  { apply (resize_valid_shape L HL). by apply shape_amap. }
  assert (Hrf : shape (resized_flow fx fy flow valid)
                      (dsize h fy) (dsize w fx)).
  { apply (resize_flow_shape L HL). by apply shape_azip. }
  split; [by apply (resize_img_shape L HL)|].
  split; [by apply (resize_img_shape L HL)|].
  split; [|by apply shape_amap].
  apply shape_azip; [by apply shape_amap|]. unfold normalized_flow.
  apply shape_azip; by repeat apply shape_amap.
Qed.

Lemma resample_stage_aligned cfg d sc (s : sample) h w :
  aligned s h w →
  aligned (resample_stage cfg d sc s)
    (if resampled cfg d then dsize h sc.2 else h)
    (if resampled cfg d then dsize w sc.1 else w).
Proof.
  destruct s as [[[img1 img2] flow] valid]. intros (H1 & H2 & Hf & Hv).
  unfold resample_stage, resampled. cbn [fst snd] in *.
  assert (Ha : aligned (img1, img2, flow, input_mask valid) h w).
  { split; [done|]. split; [done|]. split; [done|]. by apply shape_amap. }
  destruct (Qltb (r_spatial d) (spatial_aug_prob cfg)); [|done].
  exact (resample_aligned _ _ _ _ _ Ha).
Qed.

Lemma flip_stage_shapes cfg d (s : arr rgb * arr rgb * arr vec2) h w :
  shape s.1.1 h w → shape s.1.2 h w → shape s.2 h w →
  let s' := flip_stage cfg d s in
  shape s'.1.1 h w ∧ shape s'.1.2 h w ∧ shape s'.2 h w.
Proof.
  destruct s as [[img1 img2] flow]. simpl. intros H1 H2 Hf.
  unfold flip_stage, h_flip, v_flip. destruct (do_flip cfg); [|done].
  destruct (Qltb (r_hflip d) (h_flip_prob cfg)),
           (Qltb (r_vflip d) (v_flip_prob cfg)); simpl;
    (split; [|split]);
    repeat first [done | apply shape_amap | apply shape_hflip
                 | apply shape_vflip].
Qed.
End StageFacts.

Section Pipeline.
Context {L : Cv2} (HL : Cv2Laws L).

Lemma resampled_extent cfg d h w m :
  0 < h → 0 < w → (crop_size cfg).1 ≤ h → (crop_size cfg).2 ≤ w →
  min_scale_of cfg h w = Some m →
  let sc := sample_scale cfg d m in
  (crop_size cfg).1 < dsize h sc.2 ∧ (crop_size cfg).2 < dsize w sc.1.
Proof.
  intros Hh Hw Hch Hcw Hm sc.
  rewrite min_scale_of_Some in Hm by done. injection Hm as <-.
  destruct (sample_scale_ge cfg d (np_maximum
    (inject_Z (Z.of_nat ((crop_size cfg).1 + 1)) / inject_Z (Z.of_nat h))
    (inject_Z (Z.of_nat ((crop_size cfg).2 + 1)) / inject_Z (Z.of_nat w))))
    as [Hx Hy].
  split.
  - apply (dsize_gt HL); [done|].
    eapply Qle_trans; [apply np_maximum_ge_l|exact Hy].
  - apply (dsize_gt HL); [done|].
    eapply Qle_trans; [apply np_maximum_ge_r|exact Hx].
Qed.

Lemma spatial_transform_stages cfg d (s : sample) h w :
  0 < h → 0 < (crop_size cfg).1 → 0 < (crop_size cfg).2 →
  aligned s h w →
  ∃ m y0 x0 h2 w2,
    let ch := (crop_size cfg).1 in
    let cw := (crop_size cfg).2 in
    let r := resample_stage cfg d (sample_scale cfg d m) (pad_stage cfg s) in
    let fl := flip_stage cfg d (r.1.1.1, r.1.1.2, r.1.2) in
    min_scale_of cfg (h `max` ch) (w `max` cw) = Some m
    ∧ aligned r h2 w2
    ∧ y0 + ch ≤ h2 ∧ x0 + cw ≤ w2
    ∧ spatial_transform cfg d s
      = Some (crop y0 x0 ch cw fl.1.1, crop y0 x0 ch cw fl.1.2,
              crop y0 x0 ch cw fl.2, crop y0 x0 ch cw r.2).
Proof.
  intros Hh Hch Hcw Hs.
  pose proof (pad_stage_aligned cfg s h w Hh Hs) as Hp.
  set (h1 := h `max` (crop_size cfg).1) in *.
  set (w1 := w `max` (crop_size cfg).2) in *.
  assert (Hh1 : 0 < h1) by lia. assert (Hw1 : 0 < w1) by lia.
  pose proof (min_scale_of_Some cfg h1 w1 Hh1 Hw1) as Hm.
  set (m := np_maximum _ _) in Hm.
  pose proof (resample_stage_aligned HL cfg d (sample_scale cfg d m)
                (pad_stage cfg s) h1 w1 Hp) as Hr.
  set (h2 := if resampled cfg d then _ else h1) in Hr.
  set (w2 := if resampled cfg d then _ else w1) in Hr.
  assert (Hext : (crop_size cfg).1 ≤ h2 ∧ (crop_size cfg).2 ≤ w2).
  { subst h2 w2. destruct (resampled cfg d); [|lia].
    destruct (resampled_extent cfg d h1 w1 m) as [? ?]; try done; lia. }
  destruct Hext as [Hh2 Hw2].
  destruct (crop_offset_Some h2 (crop_size cfg).1 (n_y0 d) Hh2)
    as (y0 & Ey & Hy0).
  destruct (crop_offset_Some w2 (crop_size cfg).2 (n_x0 d) Hw2)
    as (x0 & Ex & Hx0).
  exists m, y0, x0, h2, w2. cbn zeta.
  split; [done|]. split; [done|]. split; [done|]. split; [done|].
  unfold spatial_transform.
  destruct Hp as (Hp1 & _).
  rewrite (shape_height _ _ _ Hp1), (shape_width _ _ _ Hp1 Hh1).
  fold h1 w1. rewrite Hm. cbn [mbind option_bind].
  destruct (resample_stage cfg d (sample_scale cfg d m) (pad_stage cfg s))
    as [[[i1 i2] f] v] eqn:Er.
  destruct Hr as (R1 & R2 & R3 & R4). cbn [fst snd] in *.
  pose proof (flip_stage_shapes cfg d (i1, i2, f) h2 w2 R1 R2 R3) as Hfl.
  destruct (flip_stage cfg d (i1, i2, f)) as [[j1 j2] g] eqn:Efl.
  cbn [fst snd] in Hfl. destruct Hfl as (F1 & F2 & F3).
  unfold crop_stage.
  destruct (crop_size cfg) as [ch cw] eqn:Ec. cbn [fst snd] in *.
  rewrite (shape_height _ _ _ F1), Ey. cbn [mbind option_bind].
  assert (0 < h2) by lia.
  rewrite (shape_width _ _ _ F1) by done. rewrite Ex. done.
Qed.
End Pipeline.

(** ** The reference instance satisfies the assumptions *)

Module ReferenceFacts.
Import Reference.

Lemma cv_round_lower q : (q - (1 # 2) <= inject_Z (cv_round q))%Q.
Proof.
  unfold cv_round.
  pose proof (Qfloor_le q) as Hlo. pose proof (Qlt_floor q) as Hhi.
  rewrite inject_Z_plus in Hhi. change (inject_Z 1) with 1%Q in Hhi.
  destruct (Qcompare_spec (q - inject_Z (Qfloor q)) (1 # 2)) as [E|E|E].
  - destruct (Z.even (Qfloor q)).
    + lra.
    + rewrite inject_Z_plus. change (inject_Z 1) with 1%Q. lra.
  - lra.
  - rewrite inject_Z_plus. change (inject_Z 1) with 1%Q. lra.
Qed.

Lemma cv_dsize_round n f :
  (inject_Z (Z.of_nat n) * f - (1 # 2)
   <= inject_Z (Z.of_nat (cv_dsize n f)))%Q.
Proof.
  unfold cv_dsize.
  eapply Qle_trans; [apply cv_round_lower|].
  rewrite <- Zle_Qle. lia.
Qed.

Lemma cv_dsize_0 f : cv_dsize 0 f = 0.
Proof.
  unfold cv_dsize, cv_round. destruct f as [fn fd].
  change (inject_Z (Z.of_nat 0) * (fn # fd))%Q with (0 # fd)%Q.
  assert (Qfloor (0 # fd) = 0%Z) as -> by (simpl; apply Z.div_0_l; lia).
  reflexivity.
Qed.

Lemma shape_tabulate {A} h w (f : nat → nat → A) :
  shape (tabulate h w f) h w.
Proof.
  unfold tabulate. split.
  - by rewrite length_fmap, length_seq.
  - apply Forall_fmap, Forall_forall. intros y _. simpl.
    by rewrite length_fmap, length_seq.
Qed.

Lemma shape_bilinear fx fy (a : arr Q) h w :
  shape a h w → shape (bilinear fx fy a) (cv_dsize h fy) (cv_dsize w fx).
Proof.
  intros Hs. unfold bilinear. rewrite (shape_height _ _ _ Hs).
  destruct h as [|h].
  - rewrite cv_dsize_0. split; [done|]. by apply Forall_nil.
  - rewrite (shape_width _ _ _ Hs) by lia. apply shape_tabulate.
Qed.

Lemma cv2_laws : Cv2Laws cv2.
Proof.
  split; simpl.
  - apply cv_dsize_round.
  - intros fx fy a h w Hs. unfold bilinear_img.
    repeat apply shape_azip; by apply shape_bilinear, shape_amap.
  - intros fx fy a h w Hs. unfold bilinear_flow.
    apply shape_azip; by apply shape_bilinear, shape_amap.
  - intros fx fy a h w Hs. by apply shape_bilinear.
Qed.

Lemma px_zero (a : arr Q) y x :
  Forall (Forall (λ v, v == 0)%Q) a → (default 0%Q (at2 a y x) == 0)%Q.
Proof.
  intros Ha. unfold at2. destruct (a !! y) as [r|] eqn:Hr; [|done].
  simpl. destruct (r !! x) as [v|] eqn:Hv; [|done]. simpl.
  pose proof (Forall_lookup_1 _ _ _ _ Ha Hr) as Hrow.
  exact (Forall_lookup_1 _ _ _ _ Hrow Hv).
Qed.

Lemma cv2_keeps_zero : resize_keeps_zero cv2.
Proof.
  intros fx fy a Ha. simpl. unfold bilinear, tabulate.
  apply Forall_fmap, Forall_forall. intros i _. simpl.
  apply Forall_fmap, Forall_forall. intros j _. simpl.
  destruct (src_pos (height a) fy i) as [y wy].
  destruct (src_pos (width a) fx j) as [x wx].
  rewrite Qred_correct. unfold lerp.
  rewrite !(px_zero a) by done. ring.
Qed.
End ReferenceFacts.

(** ** Output extent and crop range *)

Section Extent.
Context {L : Cv2} (HL : Cv2Laws L).

(** C3: for every sample whose four arrays have the same height and
    width, every configuration with a crop of at least one pixel in each
    dimension and every outcome of the random draws, the call returns,
    and the two images, the flow and the validity mask it returns all
    have exactly crop_h rows and crop_w columns. *)
Theorem output_has_crop_size cfg d img1 img2 flow valid h w :
  0 < h → 0 < (crop_size cfg).1 → 0 < (crop_size cfg).2 →
  shape img1 h w → shape img2 h w → shape flow h w → shape valid h w →
  ∃ img1' img2' flow' valid',
    spatial_transform cfg d (img1, img2, flow, valid)
    = Some (img1', img2', flow', valid')
    ∧ aligned (img1', img2', flow', valid')
              (crop_size cfg).1 (crop_size cfg).2.
Proof.
  intros Hh Hch Hcw H1 H2 Hf Hv.
  assert (Hs : aligned (img1, img2, flow, valid) h w) by done.
  destruct (spatial_transform_stages HL cfg d _ h w Hh Hch Hcw Hs)
    as (m & y0 & x0 & h2 & w2 & Hst).
  cbn zeta in Hst. destruct Hst as (_ & Hr & Hy0 & Hx0 & ->).
  destruct Hr as (R1 & R2 & R3 & R4).
  set (r := resample_stage _ _ _ _) in *.
  destruct (flip_stage_shapes cfg d (r.1.1.1, r.1.1.2, r.1.2) h2 w2
              R1 R2 R3) as (F1 & F2 & F3).
  eexists _, _, _, _. split; [reflexivity|].
  split; [|split; [|split]]; cbn [fst snd]; by apply (shape_crop _ h2 w2).
Qed.

(** C4: for a padded input of height h and width w (both at least the
    crop size) and every random draw, min_scale is the larger of
    (crop_h+1)/h and (crop_w+1)/w, both sampled scale factors are at
    least min_scale, the resized extent is strictly larger than the crop
    in both dimensions, and in either branch (resampled or not) the
    offset of the crop window is drawn from a non-empty range and leaves
    the window inside the array. *)
Theorem scale_keeps_crop_in_range cfg d h w :
  0 < (crop_size cfg).1 → 0 < (crop_size cfg).2 →
  (crop_size cfg).1 ≤ h → (crop_size cfg).2 ≤ w →
  let ch := (crop_size cfg).1 in
  let cw := (crop_size cfg).2 in
  let a := (inject_Z (Z.of_nat (ch + 1)) / inject_Z (Z.of_nat h))%Q in
  let b := (inject_Z (Z.of_nat (cw + 1)) / inject_Z (Z.of_nat w))%Q in
  ∃ m,
    min_scale_of cfg h w = Some m
    ∧ (a <= m)%Q ∧ (b <= m)%Q ∧ (m = a ∨ m = b)
    ∧ let sc := sample_scale cfg d m in
      let h2 := if resampled cfg d then dsize h sc.2 else h in
      let w2 := if resampled cfg d then dsize w sc.1 else w in
      (m <= sc.1)%Q ∧ (m <= sc.2)%Q
      ∧ ch < dsize h sc.2 ∧ cw < dsize w sc.1
      ∧ (∃ y0, crop_offset h2 ch (n_y0 d) = Some y0 ∧ y0 + ch ≤ h2)
      ∧ (∃ x0, crop_offset w2 cw (n_x0 d) = Some x0 ∧ x0 + cw ≤ w2).
Proof.
  intros Hch Hcw Hh Hw ch cw a b.
  assert (Hh0 : 0 < h) by lia. assert (Hw0 : 0 < w) by lia.
  pose proof (min_scale_of_Some cfg h w Hh0 Hw0) as Hm.
  fold ch cw a b in Hm.
  exists (np_maximum a b). split; [done|].
  split; [apply np_maximum_ge_l|]. split; [apply np_maximum_ge_r|].
  split; [unfold np_maximum; destruct (Qle_bool a b); auto|].
  cbn zeta.
  destruct (sample_scale_ge cfg d (np_maximum a b)) as [Hx Hy].
  destruct (resampled_extent HL cfg d h w _ Hh0 Hw0 Hh Hw Hm) as [Eh Ew].
  fold ch cw in Eh, Ew.
  split; [done|]. split; [done|]. split; [done|]. split; [done|].
  split; apply crop_offset_Some; destruct (resampled cfg d); lia.
Qed.
End Extent.

Lemma output_has_crop_size_witness :
  ∃ img1' img2' flow' valid',
    spatial_transform (L := Reference.cv2)
      Examples.cfg_large Examples.d_resample Examples.stale
    = Some (img1', img2', flow', valid')
    ∧ aligned (img1', img2', flow', valid') 3 3.
Proof.
  apply (output_has_crop_size ReferenceFacts.cv2_laws Examples.cfg_large
           Examples.d_resample _ _ _ _ 1 2);
    first [simpl; lia | solve_shape].
Defined.

Lemma scale_keeps_crop_in_range_witness :
  let dsz := dsize (Cv2 := Reference.cv2) in
  ∃ m,
    min_scale_of Examples.cfg 1 2 = Some m
    ∧ (2 <= m)%Q ∧ (3 # 2 <= m)%Q ∧ (m = 2%Q ∨ m = (3 # 2)%Q)
    ∧ let sc := sample_scale (L := Reference.cv2)
                  Examples.cfg Examples.d_resample m in
      (m <= sc.1)%Q ∧ (m <= sc.2)%Q
      ∧ 1 < dsz 1 sc.2 ∧ 2 < dsz 2 sc.1
      ∧ (∃ y0, crop_offset (dsz 1 sc.2) 1 3 = Some y0 ∧ y0 + 1 ≤ dsz 1 sc.2)
      ∧ (∃ x0, crop_offset (dsz 2 sc.1) 2 5 = Some x0 ∧ x0 + 2 ≤ dsz 2 sc.1).
Proof.
  apply (scale_keeps_crop_in_range ReferenceFacts.cv2_laws Examples.cfg
           Examples.d_resample 1 2); simpl; lia.
Defined.

(** ** Flow at invalid pixels *)

Lemma masked_zero_invalid (valid : arr bool) (flow : arr vec2) h w :
  shape valid h w → shape flow h w → masked (zero_invalid valid flow) valid.
Proof.
  intros Hv Hf y x Hb. unfold zero_invalid. rewrite at2_azip, Hb. simpl.
  destruct (at2_Some_lt _ _ _ _ _ _ Hv Hb) as [Hy Hx].
  destruct (at2_lt flow h w y x Hf Hy Hx) as [p ->]. done.
Qed.

Lemma masked_crop (flow : arr vec2) (valid : arr bool) h w y0 x0 ch cw :
  shape valid h w → y0 + ch ≤ h → x0 + cw ≤ w →
  masked flow valid →
  masked (crop y0 x0 ch cw flow) (crop y0 x0 ch cw valid).
Proof.
  intros Hv Hy0 Hx0 Hm y x Hb.
  destruct (at2_Some_lt _ _ _ _ _ _ (shape_crop _ _ _ _ _ _ _ Hv Hy0 Hx0) Hb)
    as [Hy Hx].
  rewrite at2_crop in Hb by done. rewrite at2_crop by done. by apply Hm.
Qed.

Lemma masked_padded (flow flow' : arr vec2) (valid valid' : arr Q) h w h' w' :
  padded_from vec0 h w flow flow' h' w' →
  padded_from 0%Q h w valid valid' h' w' →
  masked flow (input_mask valid) → masked flow' (input_mask valid').
Proof.
  intros [Sf Hf] [Sv Hv] Hm y x Hb.
  destruct (at2_Some_lt _ _ _ _ _ _
              (shape_amap (λ v, gt_half (np_float32 v)) _ _ _ Sv) Hb)
    as [Hy Hx].
  rewrite (Hf y x Hy Hx). unfold input_mask in Hb.
  rewrite at2_amap, (Hv y x Hy Hx) in Hb.
  destruct ((y <? h) && (x <? w)); [|done].
  apply Hm. unfold input_mask. by rewrite at2_amap.
Qed.

Lemma flip_stage_skip cfg d s :
  h_flipped cfg d = false → v_flipped cfg d = false → flip_stage cfg d s = s.
Proof.
  unfold h_flipped, v_flipped, flip_stage.
  destruct (do_flip cfg); [|done]. simpl. by intros -> ->.
Qed.

Section Masking.
Context {L : Cv2} (HL : Cv2Laws L).

Lemma resample_masked fx fy (s : result) h w :
  aligned s h w →
  masked (resample fx fy s).1.2 (resample fx fy s).2.
Proof.
  destruct s as [[[img1 img2] flow] valid]. intros (H1 & H2 & Hf & Hv).
  cbn [fst snd] in *. unfold resample. cbn [fst snd].
  assert (Hd : shape (density fx fy valid) (dsize h fy) (dsize w fx)).
  { apply (resize_valid_shape L HL). by apply shape_amap. }
  assert (Hrf : shape (resized_flow fx fy flow valid)
                      (dsize h fy) (dsize w fx)).
  { apply (resize_flow_shape L HL). by apply shape_azip. }
  apply (masked_zero_invalid _ _ (dsize h fy) (dsize w fx)).
  - by apply shape_amap.
  - apply shape_azip; by repeat apply shape_amap.
Qed.

(** C1 (amended): for every sample whose four arrays have the same
    height and width and every outcome of the random draws in which no
    flip is applied, if the resampling branch is taken, or if the input
    flow is already zero at every pixel whose validity, cast to float32,
    is not above 0.5, then the call returns and, at every pixel where the
    returned mask is false, both components of the returned flow are
    exactly zero. *)
Theorem zero_where_invalid_unflipped cfg d img1 img2 flow valid h w :
  0 < h → 0 < (crop_size cfg).1 → 0 < (crop_size cfg).2 →
  shape img1 h w → shape img2 h w → shape flow h w → shape valid h w →
  h_flipped cfg d = false → v_flipped cfg d = false →
  resampled cfg d = true ∨ masked flow (input_mask valid) →
  ∃ img1' img2' flow' valid',
    spatial_transform cfg d (img1, img2, flow, valid)
    = Some (img1', img2', flow', valid')
    ∧ masked flow' valid'.
Proof.
  intros Hh Hch Hcw H1 H2 Hf Hv Hhf Hvf Hcase.
  assert (Hs : aligned (img1, img2, flow, valid) h w) by done.
  destruct (spatial_transform_stages HL cfg d _ h w Hh Hch Hcw Hs)
    as (m & y0 & x0 & h2 & w2 & Hst).
  cbn zeta in Hst. destruct Hst as (_ & Hr & Hy0 & Hx0 & ->).
  rewrite flip_stage_skip by done. cbn [fst snd].
  eexists _, _, _, _. split; [reflexivity|].
  destruct Hr as (_ & _ & _ & R4).
  apply (masked_crop _ _ h2 w2); try done.
  unfold resample_stage.
  destruct (pad_stage cfg (img1, img2, flow, valid))
    as [[[p1 p2] pf] pv] eqn:Ep.
  fold (resampled cfg d).
  destruct (resampled cfg d) eqn:Er.
  - pose proof (pad_stage_aligned cfg _ h w Hh Hs) as Hp. rewrite Ep in Hp.
    apply (resample_masked _ _ (p1, p2, pf, input_mask pv)
             (h `max` (crop_size cfg).1) (w `max` (crop_size cfg).2)).
    destruct Hp as (P1 & P2 & P3 & P4).
    split; [done|]. split; [done|]. split; [done|]. by apply shape_amap.
  - destruct Hcase as [?|Hm]; [done|]. cbn [fst snd].
    destruct (pad_stage_padded cfg img1 img2 flow valid h w
                Hh H1 H2 Hf Hv)
      as (i1 & i2 & f & v & E & _ & _ & Pf & Pv).
    rewrite Ep in E. injection E as <- <- <- <-.
    by eapply masked_padded.
Qed.
End Masking.

Lemma zero_where_invalid_unflipped_witness :
  ∃ img1' img2' flow' valid',
    spatial_transform (L := Reference.cv2)
      Examples.cfg Examples.d_resample Examples.stale
    = Some (img1', img2', flow', valid')
    ∧ masked flow' valid'.
Proof.
  apply (zero_where_invalid_unflipped ReferenceFacts.cv2_laws Examples.cfg
           Examples.d_resample _ _ _ _ 1 2);
    first [simpl; lia | solve_shape | reflexivity | by left].
Defined.

(** C1 as stated fails: with resampling skipped and no flip, the stale flow
    vector (2, -1) stored at an invalid pixel of the input is returned
    unchanged at a pixel whose returned validity is false. *)
Lemma zero_where_invalid_fails : ¬ zero_where_invalid Reference.cv2.
Proof.
  intros Hclaim.
  assert (Hrun : spatial_transform (L := Reference.cv2)
                   Examples.cfg Examples.d_plain Examples.stale
                 = Some (Examples.img_a, Examples.img_b,
                         [[(1, 1); (2, -1)]]%Q, [[true; false]]))
    by (vm_compute; reflexivity).
  assert (Hm : masked [[(1, 1); (2, -1)]]%Q [[true; false]]).
  { apply (Hclaim Examples.cfg Examples.d_plain
             Examples.img_a Examples.img_b [[(1, 1); (2, -1)]]%Q [[1; 0]]%Q
             1 2 ltac:(simpl; lia) ltac:(simpl; lia) ltac:(simpl; lia)
             ltac:(solve_shape) ltac:(solve_shape) ltac:(solve_shape)
             ltac:(solve_shape) _ Hrun). }
  specialize (Hm 0 1 eq_refl). discriminate Hm.
Qed.

(** ** The validity mask under flips (lines 177-186) *)

(** C2 is violated by the code: with resampling skipped and the horizontal
    flip taken, the two images and the flow come back with their columns
    reversed while the validity mask comes back in its original column
    order, so the mask no longer lines up with the flow: the pixel that was
    valid (flow (1, 1), now (-1, 1) in column 1) is reported invalid, and
    the returned mask differs from the mirrored one. *)
Theorem valid_not_mirrored :
  spatial_transform (L := Reference.cv2)
    Examples.cfg Examples.d_hflip Examples.clean
  = Some (hflip Examples.img_a, hflip Examples.img_b,
          [[(0, 0); (-1, 1)]]%Q, [[true; false]])
  ∧ h_flipped Examples.cfg Examples.d_hflip = true
  ∧ to_mask Examples.clean.2 = [[true; false]]
  ∧ hflip (to_mask Examples.clean.2) ≠ [[true; false]]
  ∧ input_mask Examples.clean.2 = [[true; false]]
  ∧ hflip (input_mask Examples.clean.2) ≠ [[true; false]].
Proof.
  split; [by vm_compute|]. split; [reflexivity|]. split; [reflexivity|].
  split; [discriminate|]. split; [by vm_compute|].
  assert (input_mask Examples.clean.2 = [[true; false]]) as ->
    by (by vm_compute).
  discriminate.
Qed.

Section MaskWindow.
Context {L : Cv2} (HL : Cv2Laws L).

(** In general the returned mask is a window of the mask as it stands
    before the flips, whatever the flips do to the images and the flow. *)
Lemma valid_is_window_of_unflipped cfg d (s : sample) h w :
  0 < h → 0 < (crop_size cfg).1 → 0 < (crop_size cfg).2 →
  aligned s h w →
  ∃ m y0 x0 out,
    spatial_transform cfg d s = Some out
    ∧ out.2 = crop y0 x0 (crop_size cfg).1 (crop_size cfg).2
                (resample_stage cfg d (sample_scale cfg d m)
                                (pad_stage cfg s)).2.
Proof.
  intros Hh Hch Hcw Hs.
  destruct (spatial_transform_stages HL cfg d s h w Hh Hch Hcw Hs)
    as (m & y0 & x0 & h2 & w2 & Hst).
  cbn zeta in Hst. destruct Hst as (_ & _ & _ & _ & ->).
  by eexists m, y0, x0, _.
Qed.
End MaskWindow.

(** ** A mask that is false everywhere (lines 165-175) *)

Lemma all_px_at2 {A} (P : A → Prop) (a : arr A) :
  all_px P a ↔ ∀ y x v, at2 a y x = Some v → P v.
Proof.
  unfold all_px, at2. split.
  - intros Ha y x v Hv. destruct (a !! y) as [r|] eqn:Hr; [|done].
    simpl in Hv. pose proof (Forall_lookup_1 _ _ _ _ Ha Hr) as Hrow.
    exact (Forall_lookup_1 _ _ _ _ Hrow Hv).
  - intros Hat. apply Forall_lookup. intros y r Hr.
    apply Forall_lookup. intros x v Hv. apply (Hat y x v).
    by rewrite Hr.
Qed.

Lemma all_px_amap {A B} (f : A → B) (P : A → Prop) (R : B → Prop) a :
  (∀ v, P v → R (f v)) → all_px P a → all_px R (amap f a).
Proof.
  intros Hf Ha. apply all_px_at2. intros y x v. rewrite at2_amap.
  destruct (at2 a y x) as [u|] eqn:Hu; [|done]. simpl. intros [= <-].
  apply Hf. by apply (proj1 (all_px_at2 P a) Ha y x).
Qed.

Lemma all_px_hflip {A} (P : A → Prop) a : all_px P a → all_px P (hflip a).
Proof.
  intros Ha. unfold all_px, hflip. apply Forall_fmap.
  eapply Forall_impl; [exact Ha|]. intros r Hr. simpl. by apply Forall_reverse.
Qed.

Lemma all_px_vflip {A} (P : A → Prop) a : all_px P a → all_px P (vflip a).
Proof. intros Ha. by apply Forall_reverse. Qed.

Lemma all_px_crop {A} (P : A → Prop) a y0 x0 ch cw :
  all_px P a → all_px P (crop y0 x0 ch cw a).
Proof.
  intros Ha. unfold all_px, crop. apply Forall_fmap, Forall_take, Forall_drop.
  eapply Forall_impl; [exact Ha|]. intros r Hr. simpl.
  by apply Forall_take, Forall_drop.
Qed.

Lemma zero_invalid_all_false valid flow :
  all_px (λ b, b = false) valid → all_px (λ p, p = vec0) (zero_invalid valid flow).
Proof.
  intros Hv. apply all_px_at2. intros y x v. unfold zero_invalid.
  rewrite at2_azip. destruct (at2 valid y x) as [b|] eqn:Hb; [|done]. simpl.
  destruct (at2 flow y x) as [p|]; [|done]. simpl. intros [= <-].
  by rewrite (proj1 (all_px_at2 _ valid) Hv y x b Hb).
Qed.

Lemma flip_stage_all_zero cfg d img1 img2 flow :
  all_px (λ p, p = vec0) flow →
  all_px (λ p, p = vec0) (flip_stage cfg d (img1, img2, flow)).2.
Proof.
  intros Hz. unfold flip_stage, h_flip, v_flip.
  destruct (do_flip cfg); [|done].
  destruct (Qltb (r_hflip d) (h_flip_prob cfg)),
           (Qltb (r_vflip d) (v_flip_prob cfg)); cbn [fst snd];
    repeat first
      [ done
      | apply (all_px_amap _ (λ p, p = vec0)); [by intros ? ->|]
      | apply all_px_hflip | apply all_px_vflip ].
Qed.

Section AllInvalid.
Context {L : Cv2} (HL : Cv2Laws L) (HZ : resize_keeps_zero L).

Lemma density_all_invalid fx fy (valid : arr bool) :
  all_px (λ b, b = false) valid →
  all_px (λ v, (v == 0)%Q ∧ ¬ (v + eps == 0)%Q) (density fx fy valid).
Proof.
  intros Hv.
  assert (Hd : all_px (λ v, (v == 0)%Q) (density fx fy valid)).
  { apply HZ. apply (all_px_amap _ (λ b, b = false)); [|done].
    by intros ? ->. }
  eapply Forall_impl; [exact Hd|]. intros r Hr.
  eapply Forall_impl; [exact Hr|]. intros v Hv0. simpl in Hv0.
  split; [done|]. rewrite Hv0. done.
Qed.

Lemma resample_all_invalid fx fy img1 img2 flow (valid : arr bool) :
  all_px (λ b, b = false) valid →
  all_px (λ p, p = vec0) (resample fx fy (img1, img2, flow, valid)).1.2.
Proof.
  intros Hv. unfold resample. cbn [fst snd].
  apply zero_invalid_all_false.
  apply (all_px_amap _ (λ v, (v == 0)%Q ∧ ¬ (v + eps == 0)%Q));
    [|by apply density_all_invalid].
  intros v [Hv0 _]. apply gt_half_false. rewrite Hv0. done.
Qed.

Lemma pad_stage_all_invalid cfg img1 img2 flow valid h w :
  0 < h →
  shape img1 h w → shape img2 h w → shape flow h w → shape valid h w →
  all_px (λ v, gt_half (np_float32 v) = false) valid →
  all_px (λ b, b = false)
         (input_mask (pad_stage cfg (img1, img2, flow, valid)).2).
Proof.
  intros Hh H1 H2 Hf Hv Hinv.
  destruct (pad_stage_padded cfg img1 img2 flow valid h w
              Hh H1 H2 Hf Hv)
    as (i1 & i2 & f & v & -> & _ & _ & _ & [Sv Pv]).
  cbn [snd].
  apply (all_px_amap _ (λ v, gt_half (np_float32 v) = false)); [done|].
  apply all_px_at2. intros y x u Hu.
  destruct (at2_Some_lt _ _ _ _ _ _ Sv Hu) as [Hy Hx].
  rewrite (Pv y x Hy Hx) in Hu.
  destruct ((y <? h) && (x <? w)).
  - by apply (proj1 (all_px_at2 _ valid) Hinv y x).
  - by injection Hu as <-.
Qed.

(** Every pixel of the flow of line 173 is the quotient of the rescaled
    resized flow by the density plus [1e-5]; the division is defined
    wherever that divisor is not zero. *)
Lemma normalized_flow_quotient fx fy flow (valid : arr bool) y x q :
  at2 (normalized_flow fx fy flow valid) y x = Some q →
  ∃ p dv,
    at2 (resized_flow fx fy flow valid) y x = Some p
    ∧ at2 (density fx fy valid) y x = Some dv
    ∧ (¬ (dv + eps == 0)%Q →
       np_divide (p.1 * fx) (dv + eps) = Some q.1
       ∧ np_divide (p.2 * fy) (dv + eps) = Some q.2).
Proof.
  unfold normalized_flow, flow_div, flow_mul.
  rewrite at2_azip, !at2_amap.
  destruct (at2 (resized_flow fx fy flow valid) y x) as [p|]; [|done].
  destruct (at2 (density fx fy valid) y x) as [dv|]; [|done].
  cbn. intros [= <-]. exists p, dv. split; [done|]. split; [done|].
  intros Hne. unfold np_divide.
  destruct (Qeq_bool (dv + eps) 0) eqn:E; [|done].
  by apply Qeq_bool_eq in E.
Qed.

(** C6: if the input validity mask is false everywhere and the
    resampling branch is taken, then the resized validity density is zero
    at every pixel and "density + 1e-5" is not zero there; the division of
    line 173 divides, for any flow and mask, the rescaled resized flow by
    "density + 1e-5" and is defined wherever that divisor is not zero, so
    here it is defined at every pixel; the flow the branch returns is that
    quotient with (0, 0) written where the new mask is false; the call
    returns, and the returned flow is (0, 0) at every pixel. *)
Theorem all_invalid_zero_flow cfg d img1 img2 flow valid h w :
  0 < h → 0 < (crop_size cfg).1 → 0 < (crop_size cfg).2 →
  shape img1 h w → shape img2 h w → shape flow h w → shape valid h w →
  all_px (λ v, gt_half (np_float32 v) = false) valid →
  resampled cfg d = true →
  let p := pad_stage cfg (img1, img2, flow, valid) in
  let mask := input_mask p.2 in
  (∀ fx fy,
     all_px (λ v, (v == 0)%Q ∧ ¬ (v + eps == 0)%Q) (density fx fy mask))
  ∧ (∀ fx fy flow0 (valid0 : arr bool) y x q,
       at2 (normalized_flow fx fy flow0 valid0) y x = Some q →
       ∃ pv dv,
         at2 (resized_flow fx fy flow0 valid0) y x = Some pv
         ∧ at2 (density fx fy valid0) y x = Some dv
         ∧ (¬ (dv + eps == 0)%Q →
            np_divide (pv.1 * fx) (dv + eps) = Some q.1
            ∧ np_divide (pv.2 * fy) (dv + eps) = Some q.2))
  ∧ (∀ fx fy y x q,
       at2 (normalized_flow fx fy p.1.2 mask) y x = Some q →
       ∃ pv dv,
         at2 (resized_flow fx fy p.1.2 mask) y x = Some pv
         ∧ at2 (density fx fy mask) y x = Some dv
         ∧ np_divide (pv.1 * fx) (dv + eps) = Some q.1
         ∧ np_divide (pv.2 * fy) (dv + eps) = Some q.2)
  ∧ (∀ fx fy i1 i2 flow0 (valid0 : arr bool),
       let r := resample fx fy (i1, i2, flow0, valid0) in
       r.1.2 = zero_invalid r.2 (normalized_flow fx fy flow0 valid0))
  ∧ ∃ img1' img2' flow' valid',
      spatial_transform cfg d (img1, img2, flow, valid)
      = Some (img1', img2', flow', valid')
      ∧ all_px (λ p, p = vec0) flow'.
Proof.
  intros Hh Hch Hcw H1 H2 Hf Hv Hinv Hres p mask.
  pose proof (pad_stage_all_invalid cfg _ _ _ _ h w Hh H1 H2 Hf Hv Hinv)
    as Hpinv.
  fold p mask in Hpinv.
  split; [intros fx fy; by apply density_all_invalid|].
  split; [intros fx fy flow0 valid0 y x q;
          apply normalized_flow_quotient|].
  split.
  { intros fx fy y x q Hq.
    destruct (normalized_flow_quotient _ _ _ _ _ _ _ Hq)
      as (pv & dv & Hp & Hd & Hdiv).
    exists pv, dv. split; [done|]. split; [done|]. apply Hdiv.
    pose proof (density_all_invalid fx fy mask Hpinv) as Hall.
    by destruct (proj1 (all_px_at2 _ _) Hall y x dv Hd). }
  split; [done|].
  assert (Hs : aligned (img1, img2, flow, valid) h w) by done.
  destruct (spatial_transform_stages HL cfg d _ h w Hh Hch Hcw Hs)
    as (m & y0 & x0 & h2 & w2 & Hst).
  cbn zeta in Hst. destruct Hst as (_ & _ & _ & _ & ->).
  eexists _, _, _, _. split; [reflexivity|].
  apply all_px_crop.
  set (r := resample_stage _ _ _ _).
  assert (Hr : all_px (λ p, p = vec0) r.1.2).
  { subst r. unfold resample_stage. subst mask p.
    destruct (pad_stage cfg (img1, img2, flow, valid))
      as [[[p1 p2] pf] pv].
    fold (resampled cfg d). rewrite Hres.
    by apply resample_all_invalid. }
  by apply flip_stage_all_zero.
Qed.
End AllInvalid.

Lemma all_invalid_zero_flow_witness :
  let p := pad_stage Examples.cfg Examples.blind in
  let mask := input_mask p.2 in
  (∀ fx fy,
     all_px (λ v, (v == 0)%Q ∧ ¬ (v + eps == 0)%Q)
       (density (L := Reference.cv2) fx fy mask))
  ∧ (∀ fx fy flow0 (valid0 : arr bool) y x q,
       at2 (normalized_flow (L := Reference.cv2) fx fy flow0 valid0) y x
       = Some q →
       ∃ pv dv,
         at2 (resized_flow (L := Reference.cv2) fx fy flow0 valid0) y x
         = Some pv
         ∧ at2 (density (L := Reference.cv2) fx fy valid0) y x = Some dv
         ∧ (¬ (dv + eps == 0)%Q →
            np_divide (pv.1 * fx) (dv + eps) = Some q.1
            ∧ np_divide (pv.2 * fy) (dv + eps) = Some q.2))
  ∧ (∀ fx fy y x q,
       at2 (normalized_flow (L := Reference.cv2) fx fy p.1.2 mask) y x
       = Some q →
       ∃ pv dv,
         at2 (resized_flow (L := Reference.cv2) fx fy p.1.2 mask) y x
         = Some pv
         ∧ at2 (density (L := Reference.cv2) fx fy mask) y x = Some dv
         ∧ np_divide (pv.1 * fx) (dv + eps) = Some q.1
         ∧ np_divide (pv.2 * fy) (dv + eps) = Some q.2)
  ∧ (∀ fx fy i1 i2 flow0 (valid0 : arr bool),
       let r := resample (L := Reference.cv2) fx fy
                  (i1, i2, flow0, valid0) in
       r.1.2 = zero_invalid r.2
                 (normalized_flow (L := Reference.cv2) fx fy flow0 valid0))
  ∧ ∃ img1' img2' flow' valid',
      spatial_transform (L := Reference.cv2)
        Examples.cfg Examples.d_resample Examples.blind
      = Some (img1', img2', flow', valid')
      ∧ all_px (λ p, p = vec0) flow'.
Proof.
  apply (all_invalid_zero_flow ReferenceFacts.cv2_laws
           ReferenceFacts.cv2_keeps_zero Examples.cfg Examples.d_resample
           _ _ _ _ 1 2);
    first [simpl; lia | solve_shape | reflexivity
          | by repeat constructor; vm_compute].
Defined.

(** ** The resampling branch (lines 165-175) *)

Section Resample.
Context {L : Cv2}.

(** C5: in the resampling branch the flow handed to the resize is the
    input flow with (0, 0) written at every pixel that is currently
    invalid; at a pixel where the resized validity density is d and the
    resized flow is p, the returned mask is "d > 0.5" and the returned
    flow, where that mask is true, is p multiplied component-wise by
    (scale_x, scale_y) and then divided in both components by
    d + 1e-5. *)
Theorem resample_steps fx fy img1 img2 flow (valid : arr bool) y x d p :
  at2 (resize_valid fx fy (amap bool_to_float valid)) y x = Some d →
  at2 (resize_flow fx fy (zero_invalid valid flow)) y x = Some p →
  let r := resample fx fy (img1, img2, flow, valid) in
  (∀ y' x' b q,
     at2 valid y' x' = Some b → at2 flow y' x' = Some q →
     at2 (zero_invalid valid flow) y' x' = Some (if b then q else vec0))
  ∧ at2 r.2 y x = Some (gt_half d)
  ∧ at2 r.1.2 y x
    = Some (if gt_half d
            then ((p.1 * fx / (d + eps))%Q, (p.2 * fy / (d + eps))%Q)
            else vec0).
Proof.
  intros Hd Hp r. subst r. unfold resample, normalized_flow. cbn [fst snd].
  unfold density, resized_flow.
  split; [|split].
  - intros y' x' b q Hb Hq. unfold zero_invalid.
    by rewrite at2_azip, Hb, Hq.
  - unfold to_mask. by rewrite at2_amap, Hd.
  - unfold to_mask, flow_div, flow_mul. unfold zero_invalid at 1.
    by rewrite at2_azip, at2_amap, Hd, at2_azip, !at2_amap, Hp, Hd.
Qed.
End Resample.

Lemma resample_steps_witness :
  let flow := [[(1, 1); (2, -1)]]%Q in
  let valid := [[true; false]] in
  let r := resample (L := Reference.cv2) 2 2
             (Examples.img_a, Examples.img_b, flow, valid) in
  (∀ y' x' b q,
     at2 valid y' x' = Some b → at2 flow y' x' = Some q →
     at2 (zero_invalid valid flow) y' x' = Some (if b then q else vec0))
  ∧ at2 r.2 0 1 = Some (gt_half (3 # 4))
  ∧ at2 r.1.2 0 1
    = Some (if gt_half (3 # 4)
            then (((3 # 4) * 2 / ((3 # 4) + eps))%Q,
                  ((3 # 4) * 2 / ((3 # 4) + eps))%Q)
            else vec0).
Proof.
  apply (resample_steps (L := Reference.cv2) 2 2 Examples.img_a
           Examples.img_b [[(1, 1); (2, -1)]]%Q [[true; false]] 0 1
           (3 # 4)%Q ((3 # 4)%Q, (3 # 4)%Q));
    reflexivity.
Defined.

Lemma Qmult_neg1 q : (q * (-1 # 1))%Q = (- q)%Q.
Proof.
  destruct q as [n dn]. unfold Qmult, Qopp. simpl.
  f_equal; [lia|]. apply Pos.mul_1_r.
Qed.

Lemma Qmult_pos1 q : (q * (1 # 1))%Q = q.
Proof.
  destruct q as [n dn]. unfold Qmult. simpl.
  f_equal; [lia|]. apply Pos.mul_1_r.
Qed.

Lemma Qopp_opp_eq q : (- - q)%Q = q.
Proof. destruct q as [n dn]. unfold Qopp. simpl. f_equal. lia. Qed.

(** ** Flips (lines 177-186) *)

Section Flips.

Lemma flip_stage_cases cfg d img1 img2 flow :
  flip_stage cfg d (img1, img2, flow)
  = let s := if h_flipped cfg d
             then (hflip img1, hflip img2,
                   flow_mul (-1 # 1, 1 # 1)%Q (hflip flow))
             else (img1, img2, flow) in
    if v_flipped cfg d
    then (vflip s.1.1, vflip s.1.2, flow_mul (1 # 1, -1 # 1)%Q (vflip s.2))
    else s.
Proof.
  unfold flip_stage, h_flip, v_flip, h_flipped, v_flipped.
  destruct (do_flip cfg); [|done]. simpl.
  by destruct (Qltb (r_hflip d) (h_flip_prob cfg)),
              (Qltb (r_vflip d) (v_flip_prob cfg)).
Qed.

(** C7: after the flip stage, the pixel at (y, x) of each image is the
    input pixel at (y', x'), where x' is the mirrored column w-1-x when
    the horizontal flip is applied (x otherwise) and y' is the mirrored
    row h-1-y when the vertical flip is applied (y otherwise); the flow
    at (y, x) is the input flow at (y', x') with its x-component negated
    exactly when the horizontal flip is applied and its y-component
    negated exactly when the vertical flip is applied.  So a horizontal
    flip alone reverses the columns and negates x only, a vertical flip
    alone reverses the rows and negates y only, and both together
    reverse rows and columns and negate both components. *)
Theorem flip_stage_pixels cfg d img1 img2 flow h w y x :
  shape img1 h w → shape img2 h w → shape flow h w →
  y < h → x < w →
  let hf := h_flipped cfg d in
  let vf := v_flipped cfg d in
  let y' := if vf then h - S y else y in
  let x' := if hf then w - S x else x in
  let s := flip_stage cfg d (img1, img2, flow) in
  at2 s.1.1 y x = at2 img1 y' x'
  ∧ at2 s.1.2 y x = at2 img2 y' x'
  ∧ at2 s.2 y x = flip_sign hf vf <$> at2 flow y' x'.
Proof.
  intros H1 H2 Hf Hy Hx hf vf y' x' s. subst s hf vf y' x'.
  rewrite flip_stage_cases.
  destruct (h_flipped cfg d), (v_flipped cfg d); cbn [fst snd];
    unfold flow_mul;
    rewrite ?at2_amap,
      ?(at2_vflip _ h w) by
        (done || (repeat apply shape_amap; by apply shape_hflip));
    rewrite ?at2_amap, ?(at2_hflip _ h w) by (done || lia);
    (split; [done|split; [done|]]);
    destruct (at2 flow _ _) as [[p1 p2]|]; try done;
    cbn; unfold flip_sign; cbn;
    by rewrite ?Qmult_neg1, ?Qmult_pos1.
Qed.

Lemma flow_hflip_twice flow :
  flow_mul (-1 # 1, 1 # 1)%Q
    (hflip (flow_mul (-1 # 1, 1 # 1)%Q (hflip flow))) = flow.
Proof.
  unfold flow_mul, hflip, amap.
  rewrite <- !list_fmap_compose.
  rewrite <- (list_fmap_id flow) at 2. apply list_fmap_ext.
  intros i r _. simpl. rewrite fmap_reverse, <- list_fmap_compose.
  rewrite fmap_reverse, reverse_involutive.
  rewrite <- (list_fmap_id r) at 2. apply list_fmap_ext.
  intros j [p1 p2] _. simpl.
  by rewrite !Qmult_neg1, !Qmult_pos1, Qopp_opp_eq.
Qed.

(** C8: when the horizontal flip is taken (and the vertical one is not),
    running the flip stage twice in a row gives back the two images and
    the flow exactly as they were. *)
Theorem hflip_twice cfg d img1 img2 flow :
  h_flipped cfg d = true → v_flipped cfg d = false →
  flip_stage cfg d (flip_stage cfg d (img1, img2, flow))
  = (img1, img2, flow).
Proof.
  intros Hh Hv. rewrite (flip_stage_cases _ _ img1 img2 flow), Hh, Hv.
  cbn zeta. rewrite flip_stage_cases, Hh, Hv. cbn zeta.
  by rewrite !hflip_involutive, flow_hflip_twice.
Qed.
End Flips.

Lemma flip_stage_pixels_witness :
  let s := flip_stage Examples.cfg Examples.d_hflip
             (Examples.img_a, Examples.img_b, [[(1, 1); (2, -1)]]%Q) in
  at2 s.1.1 0 0 = at2 Examples.img_a 0 1
  ∧ at2 s.1.2 0 0 = at2 Examples.img_b 0 1
  ∧ at2 s.2 0 0 = flip_sign true false <$> at2 [[(1, 1); (2, -1)]]%Q 0 1.
Proof.
  apply (flip_stage_pixels Examples.cfg Examples.d_hflip
           Examples.img_a Examples.img_b [[(1, 1); (2, -1)]]%Q 1 2 0 0);
    first [lia | solve_shape].
Defined.

Lemma hflip_twice_witness :
  flip_stage Examples.cfg Examples.d_hflip
    (flip_stage Examples.cfg Examples.d_hflip
       (Examples.img_a, Examples.img_b, [[(1, 1); (2, -1)]]%Q))
  = (Examples.img_a, Examples.img_b, [[(1, 1); (2, -1)]]%Q).
Proof.
  apply (hflip_twice Examples.cfg Examples.d_hflip);
    reflexivity.
Defined.

(** ** [interpolate_holes_numpy] leaves valid pixels alone *)

Section Assign.
Context {A : Type}.

Lemma assign_row_frame (mask : list bool) (row vals out rest : list A) x :
  assign_row mask row vals = Some (out, rest) →
  mask !! x = Some false → out !! x = row !! x.
Proof.
  revert row vals out rest x.
  induction mask as [|b mask IH]; intros row vals out rest x Has Hm; [done|].
  destruct row as [|p row]; [by injection Has as <- <-|]. simpl in Has.
  destruct b.
  - destruct vals as [|v vals]; [done|].
    destruct (assign_row mask row vals) as [[o r]|] eqn:E; [|done].
    simpl in Has. injection Has as <- <-.
    destruct x as [|x]; [done|]. simpl in *. by eapply IH.
  - destruct (assign_row mask row vals) as [[o r]|] eqn:E; [|done].
    simpl in Has. injection Has as <- <-.
    destruct x as [|x]; [done|]. simpl in *. by eapply IH.
Qed.

Lemma assign_rows_frame (mask : arr bool) (a : arr A) vals out rest y x :
  assign_rows mask a vals = Some (out, rest) →
  at2 mask y x = Some false → at2 out y x = at2 a y x.
Proof.
  revert a vals out rest y.
  induction mask as [|m mask IH]; intros a vals out rest y Has Hm; [done|].
  destruct a as [|r a]; [by injection Has as <- <-|]. simpl in Has.
  destruct (assign_row m r vals) as [[r' rest1]|] eqn:Er; [|done].
  simpl in Has.
  destruct (assign_rows mask a rest1) as [[o rest2]|] eqn:Ea; [|done].
  simpl in Has. injection Has as <- <-.
  destruct y as [|y].
  - unfold at2 in *. simpl in *. by eapply assign_row_frame.
  - unfold at2 in *. simpl in *. by eapply IH.
Qed.

Lemma assign_where_frame (mask : arr bool) (a : arr A) vals out y x :
  assign_where mask a vals = Some out →
  at2 mask y x = Some false → at2 out y x = at2 a y x.
Proof.
  unfold assign_where.
  destruct (assign_rows mask a vals) as [[o rest]|] eqn:Ea; [|done].
  simpl. destruct rest; [|done]. intros [= <-]. by eapply assign_rows_frame.
Qed.
End Assign.

Section HolesFacts.
Context {X M P : Type}.
Variable cast : X → P.
Variable nonzero : M → bool.
Variable nan_to_zero : P → P.
Variable griddata :
  list (nat * nat) → list P → list (nat * nat) → option (list P).

Lemma interpolate_holes_frame image valid_mask out y x m v :
  interpolate_holes cast nonzero nan_to_zero griddata image valid_mask
  = Some out →
  at2 valid_mask y x = Some m → nonzero m = true →
  at2 image y x = Some v →
  at2 out y x = Some (nan_to_zero (cast v)).
Proof.
  unfold interpolate_holes. intros Hrun Hm Hnz Hv.
  destruct (same_shape _ _); [|done].
  destruct (griddata _ _ _) as [vals|]; [|done]. simpl in Hrun.
  destruct (assign_where _ _ vals) as [filled|] eqn:Ea; [|done].
  simpl in Hrun. injection Hrun as <-.
  rewrite at2_amap.
  rewrite (assign_where_frame _ _ _ _ y x Ea).
  - by rewrite at2_amap, Hv.
  - by rewrite !at2_amap, Hm; simpl; rewrite Hnz.
Qed.
End HolesFacts.

Section HolesFloatFacts.
Context {X M F : Type}.
Variable to_float32 : X → F.
Variable nonzero : M → bool.
Variable isnan : F → bool.
Variable zero : F.

(** C10: whenever [interpolate_holes_numpy] returns, at every pixel
    where the mask is true (non-zero) and the input value cast to float32
    is not NaN, the returned image holds the input value cast to
    float32. *)
Theorem interpolate_holes_keeps_valid griddata
    (image : arr X) (valid_mask : arr M) out y x m v :
  interpolate_holes_numpy to_float32 nonzero isnan zero griddata
    image valid_mask = Some out →
  at2 valid_mask y x = Some m → nonzero m = true →
  at2 image y x = Some v →
  isnan (to_float32 v) = false →
  at2 out y x = Some (to_float32 v).
Proof.
  intros Hrun Hm Hnz Hv Hnan.
  rewrite (interpolate_holes_frame _ _ _ _ _ _ _ _ _ _ _ Hrun Hm Hnz Hv).
  unfold fix_nan. by rewrite Hnan.
Qed.

Lemma interpolate_holes_3d_keeps_valid griddata
    (image : arr (list X)) (valid_mask : arr M) out y x c m px v :
  interpolate_holes_numpy_3d to_float32 nonzero isnan zero griddata
    image valid_mask = Some out →
  at2 valid_mask y x = Some m → nonzero m = true →
  at2 image y x = Some px → px !! c = Some v →
  isnan (to_float32 v) = false →
  at2 out y x ≫= (λ q, q !! c) = Some (to_float32 v).
Proof.
  intros Hrun Hm Hnz Hpx Hv Hnan.
  rewrite (interpolate_holes_frame _ _ _ _ _ _ _ _ _ _ _ Hrun Hm Hnz Hpx).
  simpl. rewrite !list_lookup_fmap, Hv. simpl.
  unfold fix_nan. by rewrite Hnan.
Qed.
End HolesFloatFacts.

Lemma interpolate_holes_keeps_valid_witness :
  let out := [[Some 5%Q; Some 0%Q]; [Some 7%Q; Some 9%Q]] in
  interpolate_holes_numpy Examples.to_f32 Examples.z_nonzero
    Examples.f32_isnan (Some 0%Q) Examples.griddata_outside
    Examples.holes_image Examples.holes_mask = Some out
  ∧ at2 out 1 0 = Some (Examples.to_f32 7).
Proof.
  split; [reflexivity|].
  apply (interpolate_holes_keeps_valid Examples.to_f32 Examples.z_nonzero
           Examples.f32_isnan (Some 0%Q) Examples.griddata_outside
           Examples.holes_image Examples.holes_mask _ 1 0 1%Z 7%Z);
    reflexivity.
Defined.

(** * Further properties *)

(** ** The eraser (lines 71-82) *)

Lemma shape_fill_rect {A} y0 x0 dy dx (c : A) (a : arr A) h w :
  shape a h w → shape (fill_rect y0 x0 dy dx c a) h w.
Proof.
  intros [Hl Hr]. unfold fill_rect. split.
  - by rewrite length_imap.
  - apply Forall_lookup. intros y r. rewrite list_lookup_imap.
    destruct (a !! y) as [r0|] eqn:Hy; [|done]. simpl. intros [= <-].
    rewrite length_imap. exact (Forall_lookup_1 _ _ _ _ Hr Hy).
Qed.

Lemma at2_fill_rect {A} y0 x0 dy dx (c : A) (a : arr A) y x :
  at2 (fill_rect y0 x0 dy dx c a) y x
  = (λ p, if in_slice y0 dy y && in_slice x0 dx x then c else p)
    <$> at2 a y x.
Proof.
  unfold at2, fill_rect. rewrite list_lookup_imap.
  destruct (a !! y) as [r|]; [|done]. simpl. by rewrite list_lookup_imap.
Qed.

Lemma randint_Some lo hi n :
  lo < hi → randint lo hi n = Some (lo + n `mod` (hi - lo)).
Proof. intros H. unfold randint. by destruct (Nat.ltb_spec lo hi); [|lia]. Qed.

Lemma randint_None lo hi n : hi ≤ lo → randint lo hi n = None.
Proof. intros H. unfold randint. by destruct (Nat.ltb_spec lo hi); [lia|]. Qed.

Lemma erase_patch_Some ht wd mean p img2 :
  0 < ht → 0 < wd →
  erase_patch ht wd mean p img2
  = Some (fill_rect (e_y0 p `mod` ht) (e_x0 p `mod` wd)
            (50 + e_dy p `mod` 50) (50 + e_dx p `mod` 50) mean img2).
Proof.
  intros Hh Hw. unfold erase_patch.
  rewrite !randint_Some by lia. cbn [mbind option_bind].
  change (100 - 50) with 50. by rewrite !Nat.sub_0_r.
Qed.

Lemma erase_loop_spec ht wd mean ps img2 h w :
  0 < ht → 0 < wd → shape img2 h w →
  ∃ img2',
    erase_loop ht wd mean ps img2 = Some img2'
    ∧ shape img2' h w
    ∧ ∀ y x,
        at2 img2' y x
        = (λ p, if existsb (λ q, in_patch ht wd q y x) ps then mean else p)
          <$> at2 img2 y x.
Proof.
  intros Hh Hw. revert img2.
  induction ps as [|p ps IH]; intros img2 Hs; cbn [erase_loop existsb].
  - exists img2. split; [done|]. split; [done|].
    intros y x. by destruct (at2 img2 y x).
  - rewrite erase_patch_Some by done. cbn [mbind option_bind].
    destruct (IH _ (shape_fill_rect (e_y0 p `mod` ht) (e_x0 p `mod` wd)
                      (50 + e_dy p `mod` 50) (50 + e_dx p `mod` 50)
                      mean img2 h w Hs))
      as (img2' & -> & Hs' & Hat).
    exists img2'. split; [done|]. split; [done|].
    intros y x. rewrite Hat, at2_fill_rect.
    destruct (at2 img2 y x) as [q|]; [|done]. cbn [fmap option_fmap option_map].
    f_equal. unfold in_patch.
    destruct (in_slice (e_y0 p `mod` ht) (50 + e_dy p `mod` 50) y
              && in_slice (e_x0 p `mod` wd) (50 + e_dx p `mod` 50) x);
      cbn [orb]; [|done].
    by destruct (existsb _ ps).
Qed.

Lemma eraser_transform_spec pp ed img1 img2 h w :
  0 < h → 0 < w → shape img1 h w → shape img2 h w →
  ∃ img2',
    eraser_transform pp ed img1 img2 = Some (img1, img2')
    ∧ shape img2' h w
    ∧ ∀ y x,
        at2 img2' y x
        = (λ p, if erased pp ed h w y x then mean_color img2 else p)
          <$> at2 img2 y x.
Proof.
  intros Hh Hw H1 H2. unfold eraser_transform, erased.
  rewrite (shape_height _ _ _ H1), (shape_width _ _ _ H1 Hh).
  destruct (Qltb (r_eraser ed) (eraser_aug_prob pp)); cbn [andb].
  - rewrite randint_Some by lia. cbn [mbind option_bind].
    change (3 - 1) with 2.
    destruct (erase_loop_spec h w (mean_color img2)
                (patch_of ed <$> seq 0 (1 + n_patches ed `mod` 2))
                img2 h w Hh Hw H2) as (img2' & E & Hs & Hat).
    rewrite E. cbn [mbind option_bind]. by exists img2'.
  - exists img2. split; [done|]. split; [done|].
    intros y x. by destruct (at2 img2 y x).
Qed.

(** X1: on a pair of images of the same non-empty extent,
    [eraser_transform] returns for every outcome of the draws (the
    rectangles are clipped to the image), hands back the first image
    untouched, and the second image keeps its height and width. *)
Theorem eraser_keeps_first_image_and_shape pp ed img1 img2 h w :
  0 < h → 0 < w → shape img1 h w → shape img2 h w →
  ∃ img2',
    eraser_transform pp ed img1 img2 = Some (img1, img2')
    ∧ shape img2' h w.
Proof.
  intros Hh Hw H1 H2.
  destruct (eraser_transform_spec pp ed img1 img2 h w Hh Hw H1 H2)
    as (img2' & E & Hs & _).
  by exists img2'.
Qed.

(** X2: every pixel of the second image returned by [eraser_transform] is
    either the input pixel or the mean colour of the input second image
    (computed once, before any rectangle is written): it is the mean colour
    exactly when the coin is taken and the pixel lies in the rectangle of
    one of the one or two iterations, each starting at a point of the image
    and 50 to 99 pixels long on each side. *)
Theorem eraser_pixels pp ed img1 img2 h w out y x p :
  0 < h → 0 < w → shape img1 h w → shape img2 h w →
  eraser_transform pp ed img1 img2 = Some out →
  at2 img2 y x = Some p →
  at2 out.2 y x
  = Some (if erased pp ed h w y x then mean_color img2 else p).
Proof.
  intros Hh Hw H1 H2 Hrun Hp.
  destruct (eraser_transform_spec pp ed img1 img2 h w Hh Hw H1 H2)
    as (img2' & E & _ & Hat).
  rewrite E in Hrun. injection Hrun as <-. simpl.
  by rewrite Hat, Hp.
Qed.

(** X3: when the first image has no row or no column and the coin is taken,
    [eraser_transform] raises: the first iteration draws a coordinate from
    an empty range. *)
Theorem eraser_raises_on_empty pp ed img1 img2 :
  height img1 = 0 ∨ width img1 = 0 →
  Qltb (r_eraser ed) (eraser_aug_prob pp) = true →
  eraser_transform pp ed img1 img2 = None.
Proof.
  intros Hempty Hcoin. unfold eraser_transform. rewrite Hcoin.
  rewrite randint_Some by lia. cbn [mbind option_bind].
  change (3 - 1) with 2.
  change (seq 0 (1 + n_patches ed `mod` 2))
    with (0 :: seq 1 (n_patches ed `mod` 2)).
  cbn [fmap list_fmap erase_loop]. unfold erase_patch.
  destruct (Nat.eq_dec (width img1) 0) as [Hw|Hw].
  - by rewrite Hw, (randint_None 0 0) by lia.
  - destruct Hempty as [Hh|?]; [|done].
    rewrite (randint_Some 0 (width img1)) by lia. cbn [mbind option_bind].
    by rewrite Hh, (randint_None 0 0) by lia.
Qed.

Lemma channel_sum_bounds (f : rgb → Z) px lo hi :
  Forall (λ p, (lo ≤ f p ≤ hi)%Z) px →
  (Z.of_nat (length px) * lo ≤ channel_sum f px
   ≤ Z.of_nat (length px) * hi)%Z.
Proof.
  induction 1 as [|p px Hp _ IH]; [simpl; lia|].
  cbn [channel_sum foldr length]. fold (channel_sum f px). lia.
Qed.

Lemma mean_bounds (f : rgb → Z) px lo hi :
  px ≠ [] → Forall (λ p, (lo ≤ f p ≤ hi)%Z) px →
  (lo ≤ channel_sum f px / Z.of_nat (length px) ≤ hi)%Z.
Proof.
  intros Hne Hall. pose proof (channel_sum_bounds f px lo hi Hall) as [Hlo Hhi].
  assert (Hn : (0 < Z.of_nat (length px))%Z) by (destruct px; [done|simpl; lia]).
  split.
  - by apply Z.div_le_lower_bound.
  - by apply Z.div_le_upper_bound.
Qed.

(** X4: the colour written by the eraser is an admissible colour: if every
    channel of every pixel of a non-empty image lies between lo and hi (0
    and 255 for 8-bit images), so does every channel of its mean colour. *)
Theorem mean_color_in_range img2 lo hi :
  concat img2 ≠ [] → all_px (channels_in lo hi) img2 →
  channels_in lo hi (mean_color img2).
Proof.
  intros Hne Hall. apply Forall_concat in Hall.
  unfold mean_color, channels_in. cbn [fst snd].
  split; [|split]; apply mean_bounds; try done;
    (eapply Forall_impl; [exact Hall|]); intros p (? & ? & ?); done.
Qed.

(** ** The colour stage (lines 84-96) *)


Lemma np_concatenate0_Some {A} (a b : arr A) h w :
  shape a h w → shape b h w → np_concatenate0 a b = Some (a ++ b).
Proof.
  intros Ha Hb. unfold np_concatenate0.
  rewrite (shape_height _ _ _ Ha), (shape_height _ _ _ Hb).
  destruct h as [|h]; [done|].
  rewrite (shape_width _ _ _ Ha), (shape_width _ _ _ Hb) by lia.
  by rewrite Nat.eqb_refl, orb_true_r.
Qed.

Lemma shape_app {A} (a b : arr A) h h' w :
  shape a h w → shape b h' w → shape (a ++ b) (h + h') w.
Proof.
  intros [Hl Hr] [Hl' Hr']. split.
  - rewrite length_app. lia.
  - by apply Forall_app.
Qed.

Lemma shape_take {A} (a : arr A) h w n :
  shape a h w → n ≤ h → shape (take n a) n w.
Proof.
  intros [Hl Hr] Hn. split.
  - rewrite length_take. lia.
  - by apply Forall_take.
Qed.

Lemma shape_drop {A} (a : arr A) h w n :
  shape a h w → shape (drop n a) (h - n) w.
Proof.
  intros [Hl Hr]. split.
  - rewrite length_drop. lia.
  - by apply Forall_drop.
Qed.

Section ColorFacts.
Context {J : Jitter}.

Lemma color_transform_shapes_aux pp cd img1 img2 h w :
  keeps_shape J → shape img1 h w → shape img2 h w →
  ∃ img1' img2',
    color_transform pp cd img1 img2 = Some (img1', img2')
    ∧ shape img1' h w ∧ shape img2' h w.
Proof.
  intros HJ H1 H2. unfold color_transform.
  destruct (Qltb (r_asym cd) (asymmetric_color_aug_prob pp)).
  - eexists _, _. split; [done|]. split; by apply HJ.
  - rewrite (np_concatenate0_Some _ _ h w H1 H2). cbn [mbind option_bind].
    pose proof (HJ (j_first cd) _ _ _ (shape_app _ _ _ _ _ H1 H2)) as Hs.
    unfold np_split2. rewrite (shape_height _ _ _ Hs).
    assert (Nat.even (h + h) = true) as ->.
    { replace (h + h) with (2 * h) by lia.
      apply Nat.even_spec. by exists h. }
    assert ((h + h) / 2 = h) as ->.
    { replace (h + h) with (h * 2) by lia. by apply Nat.div_mul. }
    eexists _, _. split; [done|]. split.
    + apply (shape_take _ (h + h)); [done|lia].
    + replace h with (h + h - h) at 2 by lia. by apply shape_drop.
Qed.

(** X5: if the jitter returns images of the extent of its argument, then
    [color_transform] returns in both modes (in the symmetric mode the
    stacked image always splits in two) and both images keep their height
    and width. *)
Theorem color_transform_keeps_shapes pp cd img1 img2 h w :
  keeps_shape J → shape img1 h w → shape img2 h w →
  ∃ img1' img2',
    color_transform pp cd img1 img2 = Some (img1', img2')
    ∧ shape img1' h w ∧ shape img2' h w.
Proof. apply color_transform_shapes_aux. Qed.

End ColorFacts.

(** ** Flips compose *)

Lemma vflip_involutive {A} (a : arr A) : vflip (vflip a) = a.
Proof. apply reverse_involutive. Qed.

Lemma hflip_vflip {A} (a : arr A) : hflip (vflip a) = vflip (hflip a).
Proof. unfold hflip, vflip. by rewrite fmap_reverse. Qed.

Lemma amap_hflip {A B} (f : A → B) (a : arr A) :
  amap f (hflip a) = hflip (amap f a).
Proof.
  unfold amap, hflip. rewrite <- !list_fmap_compose.
  apply list_fmap_ext. intros i r _. simpl. by rewrite fmap_reverse.
Qed.

Lemma amap_vflip {A B} (f : A → B) (a : arr A) :
  amap f (vflip a) = vflip (amap f a).
Proof. unfold amap, vflip. by rewrite fmap_reverse. Qed.

Lemma amap_amap {A B C} (f : A → B) (g : B → C) (a : arr A) :
  amap g (amap f a) = amap (g ∘ f) a.
Proof.
  unfold amap. rewrite <- list_fmap_compose. apply list_fmap_ext.
  intros i r _. simpl. by rewrite <- list_fmap_compose.
Qed.

Lemma amap_ext {A B} (f g : A → B) (a : arr A) :
  (∀ p, f p = g p) → amap f a = amap g a.
Proof.
  intros Hfg. unfold amap. apply list_fmap_ext. intros i r _.
  apply list_fmap_ext. intros j p _. apply Hfg.
Qed.

Lemma amap_id {A} (f : A → A) (a : arr A) : (∀ p, f p = p) → amap f a = a.
Proof.
  intros Hf. unfold amap. rewrite <- (list_fmap_id a) at 2.
  apply list_fmap_ext. intros i r _. simpl.
  rewrite <- (list_fmap_id r) at 2. apply list_fmap_ext. intros j p _. apply Hf.
Qed.

Lemma flow_mul_hflip c flow : flow_mul c (hflip flow) = hflip (flow_mul c flow).
Proof. apply amap_hflip. Qed.

Lemma flow_mul_vflip c flow : flow_mul c (vflip flow) = vflip (flow_mul c flow).
Proof. apply amap_vflip. Qed.

Lemma flow_mul_signs_commute flow :
  flow_mul (-1 # 1, 1 # 1)%Q (flow_mul (1 # 1, -1 # 1)%Q flow)
  = flow_mul (1 # 1, -1 # 1)%Q (flow_mul (-1 # 1, 1 # 1)%Q flow).
Proof.
  unfold flow_mul. rewrite !amap_amap. apply amap_ext. intros [p1 p2]. simpl.
  by rewrite !Qmult_neg1, !Qmult_pos1.
Qed.

Lemma flow_vflip_twice flow :
  flow_mul (1 # 1, -1 # 1)%Q
    (vflip (flow_mul (1 # 1, -1 # 1)%Q (vflip flow))) = flow.
Proof.
  rewrite !flow_mul_vflip, vflip_involutive. unfold flow_mul.
  rewrite amap_amap. apply amap_id. intros [p1 p2]. simpl.
  by rewrite !Qmult_neg1, !Qmult_pos1, Qopp_opp_eq.
Qed.

Lemma h_flip_twice s : h_flip (h_flip s) = s.
Proof.
  destruct s as [[img1 img2] flow]. unfold h_flip.
  by rewrite !hflip_involutive, flow_hflip_twice.
Qed.

Lemma v_flip_twice s : v_flip (v_flip s) = s.
Proof.
  destruct s as [[img1 img2] flow]. unfold v_flip.
  by rewrite !vflip_involutive, flow_vflip_twice.
Qed.

Lemma h_flip_v_flip s : h_flip (v_flip s) = v_flip (h_flip s).
Proof.
  destruct s as [[img1 img2] flow]. unfold h_flip, v_flip.
  rewrite !hflip_vflip. f_equal.
  repeat (rewrite flow_mul_hflip || rewrite flow_mul_vflip).
  by rewrite hflip_vflip, flow_mul_signs_commute.
Qed.

(** X8: the horizontal and the vertical flip of the two images and the
    flow commute. *)
Theorem h_flip_v_flip_commute s : h_flip (v_flip s) = v_flip (h_flip s).
Proof. apply h_flip_v_flip. Qed.

(** X7: whatever the outcome of the two coins, running the flip stage
    twice with the same draws gives back the two images and the flow. *)
Theorem flip_stage_involutive cfg d s :
  flip_stage cfg d (flip_stage cfg d s) = s.
Proof.
  unfold flip_stage. destruct (do_flip cfg); [|done].
  destruct (Qltb (r_hflip d) (h_flip_prob cfg)),
           (Qltb (r_vflip d) (v_flip_prob cfg)).
  - by rewrite h_flip_v_flip, v_flip_twice, h_flip_twice.
  - apply h_flip_twice.
  - apply v_flip_twice.
  - done.
Qed.

(** ** The crop window, explicitly *)

Lemma crop_offset_value cur c n :
  c ≤ cur →
  crop_offset cur c n = Some (if cur =? c then 0 else n `mod` (cur - c)).
Proof.
  intros Hle. unfold crop_offset.
  destruct (Nat.eqb_spec cur c); [done|].
  rewrite randint_Some by lia. by rewrite Nat.sub_0_r.
Qed.

Lemma crop_offset_le cur c n :
  c ≤ cur → (if cur =? c then 0 else n `mod` (cur - c)) + c ≤ cur.
Proof.
  intros Hle. destruct (Nat.eqb_spec cur c); [lia|].
  assert (n `mod` (cur - c) < cur - c) by (apply Nat.mod_upper_bound; lia).
  lia.
Qed.

Section PipelineExplicit.
Context {L : Cv2} (HL : Cv2Laws L).

Lemma spatial_transform_explicit cfg d (s : sample) h w :
  0 < h → 0 < (crop_size cfg).1 → 0 < (crop_size cfg).2 →
  aligned s h w →
  let ch := (crop_size cfg).1 in
  let cw := (crop_size cfg).2 in
  let h2 := (working_extent cfg d h w).1 in
  let w2 := (working_extent cfg d h w).2 in
  let y0 := (crop_origin cfg d h w).1 in
  let x0 := (crop_origin cfg d h w).2 in
  let r := resample_stage cfg d (scale_of cfg d h w) (pad_stage cfg s) in
  let fl := flip_stage cfg d (r.1.1.1, r.1.1.2, r.1.2) in
  aligned r h2 w2
  ∧ y0 + ch ≤ h2 ∧ x0 + cw ≤ w2
  ∧ spatial_transform cfg d s
    = Some (crop y0 x0 ch cw fl.1.1, crop y0 x0 ch cw fl.1.2,
            crop y0 x0 ch cw fl.2, crop y0 x0 ch cw r.2).
Proof.
  intros Hh Hch Hcw Hs. cbn zeta.
  pose proof (pad_stage_aligned cfg s h w Hh Hs) as Hp.
  unfold crop_origin, working_extent, scale_of.
  set (h1 := h `max` (crop_size cfg).1) in *.
  set (w1 := w `max` (crop_size cfg).2) in *.
  assert (Hh1 : 0 < h1) by lia. assert (Hw1 : 0 < w1) by lia.
  pose proof (min_scale_of_Some cfg h1 w1 Hh1 Hw1) as Hm.
  set (m := np_maximum _ _) in *.
  pose proof (resample_stage_aligned HL cfg d (sample_scale cfg d m)
                (pad_stage cfg s) h1 w1 Hp) as Hr.
  assert (Hext : (crop_size cfg).1 ≤
                   (if resampled cfg d
                    then dsize h1 (sample_scale cfg d m).2 else h1)
                 ∧ (crop_size cfg).2 ≤
                   (if resampled cfg d
                    then dsize w1 (sample_scale cfg d m).1 else w1)).
  { destruct (resampled cfg d); [|lia].
    destruct (resampled_extent HL cfg d h1 w1 m) as [? ?]; try done; lia. }
  destruct (resampled cfg d) eqn:Eres; cbn [fst snd] in *.
  all: destruct Hext as [Hh2 Hw2].
  all: split; [done|].
  all: split; [by apply crop_offset_le|].
  all: split; [by apply crop_offset_le|].
  all: unfold spatial_transform.
  all: destruct Hp as (Hp1 & _).
  all: rewrite (shape_height _ _ _ Hp1), (shape_width _ _ _ Hp1 Hh1).
  all: fold h1 w1; rewrite Hm; cbn [mbind option_bind].
  all: destruct (resample_stage cfg d (sample_scale cfg d m)
                   (pad_stage cfg s)) as [[[i1 i2] f] v] eqn:Er.
  all: destruct Hr as (R1 & R2 & R3 & R4); cbn [fst snd] in *.
  all: match type of R1 with shape _ ?hh ?ww =>
         pose proof (flip_stage_shapes cfg d (i1, i2, f) hh ww R1 R2 R3)
           as Hfl
       end.
  all: destruct (flip_stage cfg d (i1, i2, f)) as [[j1 j2] g] eqn:Efl.
  all: cbn [fst snd] in Hfl; destruct Hfl as (F1 & F2 & F3).
  all: unfold crop_stage.
  all: destruct (crop_size cfg) as [ch cw] eqn:Ec; cbn [fst snd] in *.
  all: rewrite (shape_height _ _ _ F1), (shape_width _ _ _ F1) by lia.
  all: rewrite !crop_offset_value by done; done.
Qed.
End PipelineExplicit.

Lemma crop_full {A} (a : arr A) h w : shape a h w → crop 0 0 h w a = a.
Proof.
  intros [Hl Hr]. unfold crop. rewrite drop_0, take_ge by lia.
  rewrite <- (list_fmap_id a) at 2. apply list_fmap_ext.
  intros i r Hi. simpl. rewrite drop_0, take_ge; [done|].
  by rewrite (Forall_lookup_1 _ _ _ _ Hr Hi).
Qed.

Lemma pad_stage_id cfg (s : sample) h w :
  0 < h → shape s.1.1.1 h w →
  (crop_size cfg).1 ≤ h → (crop_size cfg).2 ≤ w →
  pad_stage cfg s = s.
Proof.
  destruct s as [[[img1 img2] flow] valid]. cbn [fst snd].
  intros Hh H1 Hch Hcw. unfold pad_stage, pad_amounts.
  rewrite (shape_height _ _ _ H1), (shape_width _ _ _ H1 Hh).
  destruct (Nat.ltb_spec h (crop_size cfg).1); [lia|].
  destruct (Nat.ltb_spec w (crop_size cfg).2); [lia|]. done.
Qed.

Lemma pad_amounts_shape cfg (img1 img1' : arr rgb) h w :
  0 < h → shape img1 h w → shape img1' h w →
  pad_amounts cfg img1 = pad_amounts cfg img1'.
Proof.
  intros Hh H1 H1'. unfold pad_amounts.
  by rewrite (shape_height _ _ _ H1), (shape_width _ _ _ H1 Hh),
    (shape_height _ _ _ H1'), (shape_width _ _ _ H1' Hh).
Qed.

Lemma pad_stage_flow_valid cfg img1 img2 img1' img2' flow flow' valid :
  pad_amounts cfg img1 = pad_amounts cfg img1' →
  (flow = flow' →
   (pad_stage cfg (img1, img2, flow, valid)).1.2
   = (pad_stage cfg (img1', img2', flow', valid)).1.2)
  ∧ (pad_stage cfg (img1, img2, flow, valid)).2
    = (pad_stage cfg (img1', img2', flow', valid)).2.
Proof.
  intros E. unfold pad_stage. rewrite E.
  destruct (pad_amounts cfg img1') as [pb pr].
  destruct (negb (pb =? 0) || negb (pr =? 0)); cbn [fst snd];
    (split; [by intros ->|done]).
Qed.

Section Independence.
Context {L : Cv2}.

Lemma resample_stage_flow_valid cfg d sc (s s' : sample) :
  s.2 = s'.2 →
  (s.1.2 = s'.1.2 →
   (resample_stage cfg d sc s).1.2 = (resample_stage cfg d sc s').1.2)
  ∧ (resample_stage cfg d sc s).2 = (resample_stage cfg d sc s').2.
Proof.
  destruct s as [[[i1 i2] f] v], s' as [[[j1 j2] g] v'].
  cbn [fst snd]. intros <-. unfold resample_stage, resample.
  destruct (Qltb (r_spatial d) (spatial_aug_prob cfg)); cbn [fst snd];
    (split; [by intros ->|done]).
Qed.
End Independence.

Lemma flip_stage_flow cfg d img1 img2 img1' img2' flow :
  (flip_stage cfg d (img1, img2, flow)).2
  = (flip_stage cfg d (img1', img2', flow)).2.
Proof.
  unfold flip_stage, h_flip, v_flip. destruct (do_flip cfg); [|done].
  by destruct (Qltb (r_hflip d) (h_flip_prob cfg)),
              (Qltb (r_vflip d) (v_flip_prob cfg)).
Qed.

Section Outputs.
Context {L : Cv2} (HL : Cv2Laws L).

Lemma spatial_transform_output_aligned cfg d (s : sample) h w :
  0 < h → 0 < (crop_size cfg).1 → 0 < (crop_size cfg).2 →
  aligned s h w →
  ∃ out, spatial_transform cfg d s = Some out
         ∧ aligned out (crop_size cfg).1 (crop_size cfg).2.
Proof.
  intros Hh Hch Hcw Hs.
  destruct (spatial_transform_explicit HL cfg d s h w Hh Hch Hcw Hs)
    as (Hr & Hy0 & Hx0 & ->).
  destruct Hr as (R1 & R2 & R3 & R4).
  set (r := resample_stage _ _ _ _) in *.
  destruct (flip_stage_shapes cfg d (r.1.1.1, r.1.1.2, r.1.2) _ _
              R1 R2 R3) as (F1 & F2 & F3).
  eexists. split; [reflexivity|].
  split; [|split; [|split]]; cbn [fst snd];
    by eapply shape_crop.
Qed.

Lemma spatial_transform_flow_valid cfg d img1 img2 img1' img2'
    flow flow' valid h w :
  0 < h → 0 < (crop_size cfg).1 → 0 < (crop_size cfg).2 →
  shape img1 h w → shape img2 h w → shape img1' h w → shape img2' h w →
  shape flow h w → shape flow' h w → shape valid h w →
  ∃ out out',
    spatial_transform cfg d (img1, img2, flow, valid) = Some out
    ∧ spatial_transform cfg d (img1', img2', flow', valid) = Some out'
    ∧ out.2 = out'.2
    ∧ (flow = flow' → out.1.2 = out'.1.2).
Proof.
  intros Hh Hch Hcw H1 H2 H1' H2' Hf Hf' Hv.
  assert (Hs : aligned (img1, img2, flow, valid) h w) by done.
  assert (Hs' : aligned (img1', img2', flow', valid) h w) by done.
  destruct (spatial_transform_explicit HL cfg d _ h w Hh Hch Hcw Hs)
    as (_ & _ & _ & ->).
  destruct (spatial_transform_explicit HL cfg d _ h w Hh Hch Hcw Hs')
    as (_ & _ & _ & ->).
  eexists _, _. split; [reflexivity|]. split; [reflexivity|].
  cbn [fst snd].
  destruct (pad_stage_flow_valid cfg img1 img2 img1' img2' flow flow' valid
              (pad_amounts_shape cfg img1 img1' h w Hh H1 H1'))
    as [Pf Pv].
  destruct (resample_stage_flow_valid cfg d (scale_of cfg d h w)
              (pad_stage cfg (img1, img2, flow, valid))
              (pad_stage cfg (img1', img2', flow', valid)) Pv)
    as [Rf Rv].
  split; [by rewrite Rv|].
  intros E. specialize (Rf (Pf E)). rewrite Rf.
  f_equal. apply flip_stage_flow.
Qed.
End Outputs.

(** ** Unaugmented calls, independence, and [__call__] *)

Section Passthrough.
Context {L : Cv2} (HL : Cv2Laws L).

Lemma passthrough_explicit cfg d (s : sample) h w :
  0 < h → 0 < (crop_size cfg).1 → 0 < (crop_size cfg).2 →
  aligned s h w →
  resampled cfg d = false →
  h_flipped cfg d = false → v_flipped cfg d = false →
  let ch := (crop_size cfg).1 in
  let cw := (crop_size cfg).2 in
  let h1 := h `max` ch in
  let w1 := w `max` cw in
  let y0 := if h1 =? ch then 0 else n_y0 d `mod` (h1 - ch) in
  let x0 := if w1 =? cw then 0 else n_x0 d `mod` (w1 - cw) in
  let p := pad_stage cfg s in
  spatial_transform cfg d s
  = Some (crop y0 x0 ch cw p.1.1.1, crop y0 x0 ch cw p.1.1.2,
          crop y0 x0 ch cw p.1.2, crop y0 x0 ch cw (input_mask p.2)).
Proof.
  intros Hh Hch Hcw Hs Hres Hhf Hvf. cbn zeta.
  destruct (spatial_transform_explicit HL cfg d s h w Hh Hch Hcw Hs)
    as (_ & _ & _ & ->).
  rewrite flip_stage_skip by done.
  unfold crop_origin, working_extent, resample_stage.
  fold (resampled cfg d). rewrite Hres. cbn [fst snd].
  by destruct (pad_stage cfg s) as [[[p1 p2] pf] pv].
Qed.

(** X9: when the input is at least as large as the crop, resampling is
    skipped and no flip is applied, the outputs are the window of crop_h by
    crop_w pixels at one offset (y0, x0) of the two images, of the flow and
    of the mask cast to float32 and thresholded at 0.5 (line 164); the
    window lies inside the input, and y0 (x0)
    is 0 when the height (width) equals the crop height (width), the drawn
    integer reduced modulo h - crop_h (w - crop_w) otherwise. *)
Theorem unaugmented_output_is_window cfg d img1 img2 flow valid h w :
  0 < (crop_size cfg).1 → 0 < (crop_size cfg).2 →
  (crop_size cfg).1 ≤ h → (crop_size cfg).2 ≤ w →
  shape img1 h w → shape img2 h w → shape flow h w → shape valid h w →
  resampled cfg d = false →
  h_flipped cfg d = false → v_flipped cfg d = false →
  let ch := (crop_size cfg).1 in
  let cw := (crop_size cfg).2 in
  let y0 := if h =? ch then 0 else n_y0 d `mod` (h - ch) in
  let x0 := if w =? cw then 0 else n_x0 d `mod` (w - cw) in
  y0 + ch ≤ h ∧ x0 + cw ≤ w
  ∧ spatial_transform cfg d (img1, img2, flow, valid)
    = Some (crop y0 x0 ch cw img1, crop y0 x0 ch cw img2,
            crop y0 x0 ch cw flow, crop y0 x0 ch cw (input_mask valid)).
Proof.
  intros Hch Hcw Hh Hw H1 H2 Hf Hv Hres Hhf Hvf. cbn zeta.
  assert (Hh0 : 0 < h) by lia.
  split; [by apply crop_offset_le|]. split; [by apply crop_offset_le|].
  assert (Hs : aligned (img1, img2, flow, valid) h w) by done.
  rewrite (passthrough_explicit cfg d _ h w Hh0 Hch Hcw Hs Hres Hhf Hvf).
  rewrite (pad_stage_id cfg (img1, img2, flow, valid) h w Hh0 H1 Hh Hw).
  cbn [fst snd].
  by rewrite !Nat.max_l by lia.
Qed.

(** X10: when the input is at most as large as the crop in both
    dimensions, resampling is skipped and no flip is applied, the call
    returns the padded arrays themselves (with the mask cast to float32
    and thresholded at 0.5): the crop offset is (0, 0) whatever was
    drawn. *)
Theorem small_input_is_returned_padded cfg d img1 img2 flow valid h w :
  0 < h → h ≤ (crop_size cfg).1 → w ≤ (crop_size cfg).2 →
  0 < (crop_size cfg).2 →
  shape img1 h w → shape img2 h w → shape flow h w → shape valid h w →
  resampled cfg d = false →
  h_flipped cfg d = false → v_flipped cfg d = false →
  let p := pad_stage cfg (img1, img2, flow, valid) in
  spatial_transform cfg d (img1, img2, flow, valid)
  = Some (p.1.1.1, p.1.1.2, p.1.2, input_mask p.2).
Proof.
  intros Hh0 Hh Hw Hcw H1 H2 Hf Hv Hres Hhf Hvf. cbn zeta.
  assert (Hch : 0 < (crop_size cfg).1) by lia.
  assert (Hs : aligned (img1, img2, flow, valid) h w) by done.
  rewrite (passthrough_explicit cfg d _ h w Hh0 Hch Hcw Hs Hres Hhf Hvf).
  destruct (pad_stage_aligned cfg _ h w Hh0 Hs) as (P1 & P2 & P3 & P4).
  rewrite !Nat.max_r, !Nat.eqb_refl in * by lia.
  rewrite !crop_full; try done. by apply shape_amap.
Qed.

(** X11: on an input of exactly the crop size, with resampling skipped and
    no flip applied, the call returns the two images and the flow unchanged
    and the mask cast to float32 and thresholded at 0.5, whatever the other
    draws are. *)
Theorem crop_sized_input_is_returned cfg d img1 img2 flow valid :
  let h := (crop_size cfg).1 in
  let w := (crop_size cfg).2 in
  0 < h → 0 < w →
  shape img1 h w → shape img2 h w → shape flow h w → shape valid h w →
  resampled cfg d = false →
  h_flipped cfg d = false → v_flipped cfg d = false →
  spatial_transform cfg d (img1, img2, flow, valid)
  = Some (img1, img2, flow, input_mask valid).
Proof.
  intros h w Hh Hw H1 H2 Hf Hv Hres Hhf Hvf.
  assert (Hs : aligned (img1, img2, flow, valid) h w) by done.
  rewrite (passthrough_explicit cfg d _ h w Hh Hh Hw Hs Hres Hhf Hvf).
  rewrite (pad_stage_id cfg (img1, img2, flow, valid) h w Hh H1)
    by (subst h w; lia).
  cbn [fst snd]. fold h w. rewrite !Nat.max_id, !Nat.eqb_refl.
  rewrite !crop_full; try done. by apply shape_amap.
Qed.

(** X12: the returned flow and mask do not depend on the content of the
    images: two calls with the same draws, the same flow and mask and any
    images of the same extent return the same flow and the same mask. *)
Theorem flow_and_mask_ignore_images cfg d img1 img2 img1' img2'
    flow valid h w :
  0 < h → 0 < (crop_size cfg).1 → 0 < (crop_size cfg).2 →
  shape img1 h w → shape img2 h w → shape img1' h w → shape img2' h w →
  shape flow h w → shape valid h w →
  ∃ out out',
    spatial_transform cfg d (img1, img2, flow, valid) = Some out
    ∧ spatial_transform cfg d (img1', img2', flow, valid) = Some out'
    ∧ out.1.2 = out'.1.2 ∧ out.2 = out'.2.
Proof.
  intros Hh Hch Hcw H1 H2 H1' H2' Hf Hv.
  destruct (spatial_transform_flow_valid HL cfg d img1 img2 img1' img2'
              flow flow valid h w Hh Hch Hcw H1 H2 H1' H2' Hf Hf Hv)
    as (out & out' & E & E' & Ev & Ef).
  exists out, out'. split; [done|]. split; [done|]. split; [by apply Ef|done].
Qed.

(** X13: the returned mask depends neither on the images nor on the flow:
    two calls with the same draws and the same input mask return the same
    mask. *)
Theorem mask_ignores_flow cfg d img1 img2 img1' img2' flow flow'
    valid h w :
  0 < h → 0 < (crop_size cfg).1 → 0 < (crop_size cfg).2 →
  shape img1 h w → shape img2 h w → shape img1' h w → shape img2' h w →
  shape flow h w → shape flow' h w → shape valid h w →
  ∃ out out',
    spatial_transform cfg d (img1, img2, flow, valid) = Some out
    ∧ spatial_transform cfg d (img1', img2', flow', valid) = Some out'
    ∧ out.2 = out'.2.
Proof.
  intros Hh Hch Hcw H1 H2 H1' H2' Hf Hf' Hv.
  destruct (spatial_transform_flow_valid HL cfg d img1 img2 img1' img2'
              flow flow' valid h w Hh Hch Hcw H1 H2 H1' H2' Hf Hf' Hv)
    as (out & out' & E & E' & Ev & _).
  by exists out, out'.
Qed.
End Passthrough.

Section CallFacts.
Context {L : Cv2} (HL : Cv2Laws L) {J : Jitter} (HJ : keeps_shape J).

Lemma call_stages cfg pp cd img1 img2 flow valid h w :
  0 < h → 0 < w →
  shape img1 h w → shape img2 h w →
  ∃ img1' img2',
    shape img1' h w ∧ shape img2' h w
    ∧ call cfg pp cd (img1, img2, flow, valid)
      = spatial_transform cfg (d_spatial cd) (img1', img2', flow, valid).
Proof.
  intros Hh Hw H1 H2. unfold call.
  destruct (color_transform_shapes_aux pp (d_color cd) img1 img2 h w
              HJ H1 H2) as (c1 & c2 & -> & C1 & C2).
  cbn [mbind option_bind].
  destruct (eraser_transform_spec pp (d_eraser cd) c1 c2 h w Hh Hw C1 C2)
    as (e2 & -> & E2 & _).
  cbn [mbind option_bind]. by exists c1, e2.
Qed.

(** X14: [__call__] (colour jitter, eraser, spatial transform) returns for
    every non-empty sample of matching shapes and every outcome of the
    draws, and its four outputs have exactly crop_h rows and crop_w
    columns. *)
Theorem call_output_has_crop_size cfg pp cd img1 img2 flow valid h w :
  0 < h → 0 < w → 0 < (crop_size cfg).1 → 0 < (crop_size cfg).2 →
  shape img1 h w → shape img2 h w → shape flow h w → shape valid h w →
  ∃ out, call cfg pp cd (img1, img2, flow, valid) = Some out
         ∧ aligned out (crop_size cfg).1 (crop_size cfg).2.
Proof.
  intros Hh Hw Hch Hcw H1 H2 Hf Hv.
  destruct (call_stages cfg pp cd img1 img2 flow valid h w Hh Hw H1 H2)
    as (c1 & c2 & C1 & C2 & ->).
  by apply (spatial_transform_output_aligned HL _ _ _ h w).
Qed.

(** X15: the photometric stages of [__call__] do not influence the flow
    and the mask: they are the ones [spatial_transform] returns on the
    untouched sample with the same spatial draws. *)
Theorem call_flow_and_mask cfg pp cd img1 img2 flow valid h w :
  0 < h → 0 < w → 0 < (crop_size cfg).1 → 0 < (crop_size cfg).2 →
  shape img1 h w → shape img2 h w → shape flow h w → shape valid h w →
  ∃ out out',
    call cfg pp cd (img1, img2, flow, valid) = Some out
    ∧ spatial_transform cfg (d_spatial cd) (img1, img2, flow, valid)
      = Some out'
    ∧ out.1.2 = out'.1.2 ∧ out.2 = out'.2.
Proof.
  intros Hh Hw Hch Hcw H1 H2 Hf Hv.
  destruct (call_stages cfg pp cd img1 img2 flow valid h w Hh Hw H1 H2)
    as (c1 & c2 & C1 & C2 & ->).
  destruct (spatial_transform_flow_valid HL cfg (d_spatial cd)
              c1 c2 img1 img2 flow flow valid h w
              Hh Hch Hcw C1 C2 H1 H2 Hf Hf Hv)
    as (out & out' & E & E' & Ev & Ef).
  exists out, out'. split; [done|]. split; [done|]. split; [by apply Ef|done].
Qed.
End CallFacts.

(** ** More on [interpolate_holes_numpy] *)

Lemma select_row_cons {A} (b : bool) m (p : A) r :
  select_row (b :: m) (p :: r)
  = if b then p :: select_row m r else select_row m r.
Proof.
  unfold select_row. simpl. rewrite filter_cons. simpl.
  destruct b; by destruct (decide _).
Qed.

Section SelectAssign.
Context {A : Type}.

Lemma assign_row_spec (m : list bool) (r vals out rest : list A) :
  assign_row m r vals = Some (out, rest) → length m = length r →
  length out = length r
  ∧ vals = select_row m out ++ rest
  ∧ length (select_row m out) = length (select_row m r).
Proof.
  revert r vals out rest.
  induction m as [|b m IH]; intros r vals out rest Has Hlen.
  - destruct r; [|done]. by injection Has as <- <-.
  - destruct r as [|p r]; [done|]. simpl in Has, Hlen.
    destruct b.
    + destruct vals as [|v vals]; [done|].
      destruct (assign_row m r vals) as [[o rs]|] eqn:E; [|done].
      simpl in Has. injection Has as <- <-.
      destruct (IH _ _ _ _ E ltac:(lia)) as (Hl & Hv & Hc).
      rewrite !select_row_cons. simpl. rewrite Hl, Hc. by rewrite Hv at 1.
    + destruct (assign_row m r vals) as [[o rs]|] eqn:E; [|done].
      simpl in Has. injection Has as <- <-.
      destruct (IH _ _ _ _ E ltac:(lia)) as (Hl & Hv & Hc).
      rewrite !select_row_cons. simpl. by rewrite Hl.
Qed.

Lemma assign_rows_spec (m : arr bool) (a : arr A) vals out rest :
  assign_rows m a vals = Some (out, rest) →
  Forall2 (λ mr r, length mr = length r) m a →
  Forall2 (λ o r, length o = length r) out a
  ∧ vals = select m out ++ rest
  ∧ length (select m out) = length (select m a).
Proof.
  intros Has Hsh. revert vals out rest Has.
  induction Hsh as [|mr r m a Hrow Hsh IH]; intros vals out rest Has.
  - by injection Has as <- <-.
  - simpl in Has.
    destruct (assign_row mr r vals) as [[r' rest1]|] eqn:Er; [|done].
    simpl in Has.
    destruct (assign_rows m a rest1) as [[o rest2]|] eqn:Ea; [|done].
    simpl in Has. injection Has as <- <-.
    destruct (assign_row_spec _ _ _ _ _ Er Hrow) as (Hl & Hv & Hc).
    destruct (IH _ _ _ Ea) as (Hsh' & Hv' & Hc').
    split; [by constructor|].
    unfold select in *. simpl. rewrite !length_app, <- app_assoc.
    split; [by rewrite Hv, Hv'|]. lia.
Qed.

Lemma select_row_fmap {B} (f : A → B) (mr : list bool) (r : list A) :
  select_row mr (f <$> r) = f <$> select_row mr r.
Proof.
  revert r. induction mr as [|b mr IH]; intros [|p r]; try done.
  rewrite fmap_cons, !select_row_cons.
  destruct b; [rewrite fmap_cons|]; by rewrite IH.
Qed.

Lemma select_amap {B} (f : A → B) (m : arr bool) (a : arr A) :
  select m (amap f a) = f <$> select m a.
Proof.
  unfold select, amap. revert a.
  induction m as [|mr m IH]; intros [|r a]; try done.
  rewrite fmap_cons. cbn [zip_with concat]. cbn beta.
  by rewrite fmap_app, IH, select_row_fmap.
Qed.
End SelectAssign.

Lemma same_shape_rows {A B} (a : arr A) (b : arr B) :
  same_shape a b = true → Forall2 (λ r s, length r = length s) a b.
Proof.
  unfold same_shape. intros H. apply andb_true_iff in H as [Hl Hr].
  apply Nat.eqb_eq in Hl. revert b Hl Hr.
  induction a as [|r a IH]; intros [|s b] Hl Hr; try done.
  simpl in *. apply andb_true_iff in Hr as [Hrs Hr].
  constructor; [by apply Nat.eqb_eq|]. apply IH; [lia|done].
Qed.

Lemma Forall2_rows_shape {A B} (a : arr A) (b : arr B) h w :
  Forall2 (λ r s, length r = length s) a b → shape b h w → shape a h w.
Proof.
  intros Hab [Hl Hr]. split.
  - by rewrite (Forall2_length _ _ _ Hab).
  - clear Hl. induction Hab as [|r s a b Hrs Hab IH]; [done|].
    inversion Hr; subst. constructor; [lia|by apply IH].
Qed.

Section HolesMore.
Context {X M F : Type}.
Variable to_float32 : X → F.
Variable nonzero : M → bool.
Variable isnan : F → bool.
Variable zero : F.
Variable griddata :
  list (nat * nat) → list F → list (nat * nat) → option (list F).

Abbreviation run :=
  (interpolate_holes_numpy to_float32 nonzero isnan zero griddata).

Lemma interpolate_holes_run (image : arr X) (valid_mask : arr M) out :
  run image valid_mask = Some out →
  let img := amap to_float32 image in
  let mask := amap nonzero valid_mask in
  let grid := mgrid (height img) (width img) in
  ∃ vals filled,
    same_shape mask img = true
    ∧ griddata (select mask grid) (select mask img)
               (select (amap negb mask) grid) = Some vals
    ∧ assign_where (amap negb mask) img vals = Some filled
    ∧ out = amap (fix_nan isnan zero) filled.
Proof.
  unfold interpolate_holes_numpy, interpolate_holes. intros Hrun. cbn zeta.
  destruct (same_shape _ _) eqn:Es; [|done].
  destruct (griddata _ _ _) as [vals|] eqn:Eg; [|done]. simpl in Hrun.
  destruct (assign_where _ _ vals) as [filled|] eqn:Ea; [|done].
  simpl in Hrun. injection Hrun as <-. by exists vals, filled.
Qed.

Lemma negb_mask_rows (mask : arr bool) (img : arr F) :
  Forall2 (λ r s, length r = length s) mask img →
  Forall2 (λ r s, length r = length s) (amap negb mask) img.
Proof.
  intros H. unfold amap. apply Forall2_fmap_l.
  eapply Forall2_impl; [exact H|]. intros r s Hrs. simpl.
  by rewrite length_fmap.
Qed.

(** X16: whenever [interpolate_holes_numpy] returns, the returned image has
    the height and width of the input image. *)
Theorem interpolate_holes_keeps_shape image valid_mask out h w :
  run image valid_mask = Some out → shape image h w → shape out h w.
Proof.
  intros Hrun Hs.
  destruct (interpolate_holes_run _ _ _ Hrun)
    as (vals & filled & Es & _ & Ea & ->).
  apply shape_amap. unfold assign_where in Ea.
  destruct (assign_rows _ _ vals) as [[o rest]|] eqn:Er; [|done].
  simpl in Ea. destruct rest; [|done]. injection Ea as <-.
  destruct (assign_rows_spec _ _ _ _ _ Er
              (negb_mask_rows _ _ (same_shape_rows _ _ Es))) as (Hsh & _).
  apply (Forall2_rows_shape _ _ _ _ Hsh). by apply shape_amap.
Qed.

(** X17: whenever [interpolate_holes_numpy] returns, no pixel of the
    returned image is NaN (the constant 0 not being NaN). *)
Theorem interpolate_holes_no_nan image valid_mask out y x v :
  isnan zero = false →
  run image valid_mask = Some out →
  at2 out y x = Some v → isnan v = false.
Proof.
  intros Hz Hrun Hv.
  destruct (interpolate_holes_run _ _ _ Hrun)
    as (vals & filled & _ & _ & _ & ->).
  rewrite at2_amap in Hv. destruct (at2 filled y x) as [u|]; [|done].
  simpl in Hv. injection Hv as <-. unfold fix_nan.
  by destruct (isnan u) eqn:E.
Qed.

(** X18: whenever [interpolate_holes_numpy] returns, the invalid pixels of
    the returned image, read in row-major order, are the values that
    griddata returned for the invalid coordinates, in the same order, with
    every NaN replaced by 0. *)
Theorem interpolate_holes_fills_in_order image valid_mask out :
  run image valid_mask = Some out →
  let img := amap to_float32 image in
  let mask := amap nonzero valid_mask in
  let grid := mgrid (height img) (width img) in
  ∃ vals,
    griddata (select mask grid) (select mask img)
             (select (amap negb mask) grid) = Some vals
    ∧ select (amap negb mask) out = fix_nan isnan zero <$> vals.
Proof.
  intros Hrun. cbn zeta.
  destruct (interpolate_holes_run _ _ _ Hrun)
    as (vals & filled & Es & Eg & Ea & ->).
  exists vals. split; [done|]. rewrite select_amap. f_equal.
  unfold assign_where in Ea.
  destruct (assign_rows _ _ vals) as [[o rest]|] eqn:Er; [|done].
  simpl in Ea. destruct rest; [|done]. injection Ea as <-.
  destruct (assign_rows_spec _ _ _ _ _ Er
              (negb_mask_rows _ _ (same_shape_rows _ _ Es)))
    as (_ & -> & _).
  by rewrite app_nil_r.
Qed.

(** X19: when the mask and the image differ in height, or in width for a
    non-empty image, [interpolate_holes_numpy] raises. *)
Theorem interpolate_holes_shape_mismatch image valid_mask h w h' w' :
  shape image h w → shape valid_mask h' w' →
  h ≠ h' ∨ (0 < h ∧ w ≠ w') →
  run image valid_mask = None.
Proof.
  intros Hi Hm Hne.
  destruct (run image valid_mask) as [out|] eqn:Hrun; [|done].
  exfalso.
  destruct (interpolate_holes_run _ _ _ Hrun)
    as (vals & filled & Es & _).
  apply same_shape_rows in Es.
  pose proof (Forall2_rows_shape _ _ h w Es (shape_amap _ _ _ _ Hi)) as Hm'.
  apply (shape_amap nonzero) in Hm.
  destruct Hm as [Hl Hr], Hm' as [Hl' Hr'].
  destruct Hne as [Hh|[Hh Hw]]; [congruence|].
  destruct (amap nonzero valid_mask) as [|r m]; [simpl in *; lia|].
  inversion Hr; inversion Hr'; subst. congruence.
Qed.
End HolesMore.

(** ** The scale factors are positive *)

Section ScalePositive.
Context {L : Cv2}.

(** X20: whatever the draws and whatever [2 ** x] evaluates to, the two
    scale factors handed to the resize are strictly positive: they are
    clipped from below by min_scale, which is at least (crop_h + 1) / h. *)
Theorem scale_factors_positive cfg d h w m :
  0 < h → 0 < w →
  min_scale_of cfg h w = Some m →
  (0 < (sample_scale cfg d m).1)%Q ∧ (0 < (sample_scale cfg d m).2)%Q.
Proof.
  intros Hh Hw Hm. rewrite min_scale_of_Some in Hm by done.
  injection Hm as <-.
  set (a := (inject_Z (Z.of_nat ((crop_size cfg).1 + 1))
             / inject_Z (Z.of_nat h))%Q).
  set (b := (inject_Z (Z.of_nat ((crop_size cfg).2 + 1))
             / inject_Z (Z.of_nat w))%Q).
  assert (Ha : (0 < a)%Q).
  { subst a. apply Qlt_shift_div_l.
    - change 0%Q with (inject_Z 0). rewrite <- Zlt_Qlt. lia.
    - rewrite Qmult_0_l. change 0%Q with (inject_Z 0).
      rewrite <- Zlt_Qlt. lia. }
  destruct (sample_scale_ge cfg d (np_maximum a b)) as [Hx Hy].
  pose proof (np_maximum_ge_l a b) as Hab.
  split; eapply Qlt_le_trans; try exact Ha;
    (eapply Qle_trans; [exact Hab|done]).
Qed.
End ScalePositive.

Lemma scale_factors_positive_witness :
  (0 < (sample_scale (L := Reference.cv2)
          Examples.cfg Examples.d_resample 2).1)%Q
  ∧ (0 < (sample_scale (L := Reference.cv2)
            Examples.cfg Examples.d_resample 2).2)%Q.
Proof.
  apply (scale_factors_positive (L := Reference.cv2)
           Examples.cfg Examples.d_resample 1 2 2%Q);
    first [lia | reflexivity].
Defined.

(** ** The sample jitter satisfies the assumptions *)


Lemma brightness_keeps_shape : keeps_shape PhotoExamples.brightness.
Proof. intros j a h w Hs. simpl. by apply shape_amap. Qed.

(** ** The further properties at concrete samples *)

Lemma eraser_keeps_first_image_and_shape_witness :
  ∃ img2',
    eraser_transform photo_init PhotoExamples.ed_on
      PhotoExamples.img_c PhotoExamples.img_d
    = Some (PhotoExamples.img_c, img2')
    ∧ shape img2' 2 2.
Proof.
  apply (eraser_keeps_first_image_and_shape photo_init PhotoExamples.ed_on
           PhotoExamples.img_c PhotoExamples.img_d 2 2);
    first [lia | solve_shape].
Defined.

Lemma eraser_pixels_witness :
  at2 [[(1, 2, 3); (4, 6, 8)]; [(7, 8, 10); (6, 7, 10)]]%Z 1 1
  = Some (if erased photo_init PhotoExamples.ed_on 2 2 1 1
          then mean_color PhotoExamples.img_d else (12, 12, 19)%Z).
Proof.
  apply (eraser_pixels photo_init PhotoExamples.ed_on
           PhotoExamples.img_c PhotoExamples.img_d 2 2
           (PhotoExamples.img_c,
            [[(1, 2, 3); (4, 6, 8)]; [(7, 8, 10); (6, 7, 10)]]%Z)
           1 1 (12, 12, 19)%Z);
    first [lia | solve_shape | reflexivity].
Defined.

Lemma eraser_raises_on_empty_witness :
  eraser_transform photo_init PhotoExamples.ed_on [] [] = None.
Proof.
  apply (eraser_raises_on_empty photo_init PhotoExamples.ed_on [] []);
    [by left | reflexivity].
Defined.

Lemma mean_color_in_range_witness :
  channels_in 0 255 (mean_color PhotoExamples.img_d).
Proof.
  apply (mean_color_in_range PhotoExamples.img_d 0 255); [discriminate|].
  unfold all_px, channels_in. repeat constructor; simpl; lia.
Defined.

Lemma color_transform_keeps_shapes_witness :
  ∃ img1' img2',
    color_transform photo_init PhotoExamples.cd_sym
      PhotoExamples.img_c PhotoExamples.img_d = Some (img1', img2')
    ∧ shape img1' 2 2 ∧ shape img2' 2 2.
Proof.
  apply (color_transform_keeps_shapes photo_init PhotoExamples.cd_sym
           PhotoExamples.img_c PhotoExamples.img_d 2 2
           brightness_keeps_shape);
    solve_shape.
Defined.


Lemma unaugmented_output_is_window_witness :
  0 + 1 ≤ 2 ∧ 0 + 1 ≤ 2
  ∧ spatial_transform (L := Reference.cv2)
      PhotoExamples.cfg_small Examples.d_plain PhotoExamples.sample_c
    = Some (crop 0 0 1 1 PhotoExamples.img_c,
            crop 0 0 1 1 PhotoExamples.img_d,
            crop 0 0 1 1 PhotoExamples.flow_c,
            crop 0 0 1 1 (input_mask PhotoExamples.valid_c)).
Proof.
  apply (unaugmented_output_is_window ReferenceFacts.cv2_laws
           PhotoExamples.cfg_small Examples.d_plain
           PhotoExamples.img_c PhotoExamples.img_d
           PhotoExamples.flow_c PhotoExamples.valid_c 2 2);
    first [simpl; lia | solve_shape | reflexivity].
Defined.

Lemma small_input_is_returned_padded_witness :
  let p := pad_stage Examples.cfg_large Examples.stale in
  spatial_transform (L := Reference.cv2)
    Examples.cfg_large Examples.d_plain Examples.stale
  = Some (p.1.1.1, p.1.1.2, p.1.2, input_mask p.2).
Proof.
  apply (small_input_is_returned_padded ReferenceFacts.cv2_laws
           Examples.cfg_large Examples.d_plain
           Examples.img_a Examples.img_b [[(1, 1); (2, -1)]]%Q [[1; 0]]%Q
           1 2);
    first [simpl; lia | solve_shape | reflexivity].
Defined.

Lemma crop_sized_input_is_returned_witness :
  spatial_transform (L := Reference.cv2)
    PhotoExamples.cfg_same Examples.d_plain PhotoExamples.sample_c
  = Some (PhotoExamples.img_c, PhotoExamples.img_d, PhotoExamples.flow_c,
          input_mask PhotoExamples.valid_c).
Proof.
  apply (crop_sized_input_is_returned ReferenceFacts.cv2_laws
           PhotoExamples.cfg_same Examples.d_plain
           PhotoExamples.img_c PhotoExamples.img_d
           PhotoExamples.flow_c PhotoExamples.valid_c);
    first [simpl; lia | solve_shape | reflexivity].
Defined.

Lemma flow_and_mask_ignore_images_witness :
  ∃ out out',
    spatial_transform (L := Reference.cv2)
      PhotoExamples.cfg_small Examples.d_resample
      (PhotoExamples.img_c, PhotoExamples.img_d,
       PhotoExamples.flow_c, PhotoExamples.valid_c) = Some out
    ∧ spatial_transform (L := Reference.cv2)
        PhotoExamples.cfg_small Examples.d_resample
        (PhotoExamples.img_d, PhotoExamples.img_c,
         PhotoExamples.flow_c, PhotoExamples.valid_c) = Some out'
    ∧ out.1.2 = out'.1.2 ∧ out.2 = out'.2.
Proof.
  apply (flow_and_mask_ignore_images ReferenceFacts.cv2_laws
           PhotoExamples.cfg_small Examples.d_resample
           PhotoExamples.img_c PhotoExamples.img_d
           PhotoExamples.img_d PhotoExamples.img_c
           PhotoExamples.flow_c PhotoExamples.valid_c 2 2);
    first [simpl; lia | solve_shape].
Defined.

Lemma mask_ignores_flow_witness :
  ∃ out out',
    spatial_transform (L := Reference.cv2)
      PhotoExamples.cfg_small Examples.d_resample
      (PhotoExamples.img_c, PhotoExamples.img_d,
       PhotoExamples.flow_c, PhotoExamples.valid_c) = Some out
    ∧ spatial_transform (L := Reference.cv2)
        PhotoExamples.cfg_small Examples.d_resample
        (PhotoExamples.img_d, PhotoExamples.img_c,
         [[(0, 0); (5, 5)]; [(7, -7); (0, 1)]]%Q, PhotoExamples.valid_c)
      = Some out'
    ∧ out.2 = out'.2.
Proof.
  apply (mask_ignores_flow ReferenceFacts.cv2_laws
           PhotoExamples.cfg_small Examples.d_resample
           PhotoExamples.img_c PhotoExamples.img_d
           PhotoExamples.img_d PhotoExamples.img_c
           PhotoExamples.flow_c [[(0, 0); (5, 5)]; [(7, -7); (0, 1)]]%Q
           PhotoExamples.valid_c 2 2);
    first [simpl; lia | solve_shape].
Defined.

Lemma call_output_has_crop_size_witness :
  ∃ out,
    call (L := Reference.cv2) (J := PhotoExamples.brightness)
      PhotoExamples.cfg_small photo_init PhotoExamples.cd_all
      PhotoExamples.sample_c = Some out
    ∧ aligned out 1 1.
Proof.
  apply (call_output_has_crop_size ReferenceFacts.cv2_laws
           brightness_keeps_shape PhotoExamples.cfg_small photo_init
           PhotoExamples.cd_all PhotoExamples.img_c PhotoExamples.img_d
           PhotoExamples.flow_c PhotoExamples.valid_c 2 2);
    first [simpl; lia | solve_shape].
Defined.

Lemma call_flow_and_mask_witness :
  ∃ out out',
    call (L := Reference.cv2) (J := PhotoExamples.brightness)
      PhotoExamples.cfg_small photo_init PhotoExamples.cd_all
      PhotoExamples.sample_c = Some out
    ∧ spatial_transform (L := Reference.cv2)
        PhotoExamples.cfg_small Examples.d_plain PhotoExamples.sample_c
      = Some out'
    ∧ out.1.2 = out'.1.2 ∧ out.2 = out'.2.
Proof.
  apply (call_flow_and_mask ReferenceFacts.cv2_laws
           brightness_keeps_shape PhotoExamples.cfg_small photo_init
           PhotoExamples.cd_all PhotoExamples.img_c PhotoExamples.img_d
           PhotoExamples.flow_c PhotoExamples.valid_c 2 2);
    first [simpl; lia | solve_shape].
Defined.

Lemma interpolate_holes_keeps_shape_witness :
  let out := [[Some 5%Q; Some 0%Q]; [Some 7%Q; Some 9%Q]] in
  interpolate_holes_numpy Examples.to_f32 Examples.z_nonzero
    Examples.f32_isnan (Some 0%Q) Examples.griddata_outside
    Examples.holes_image Examples.holes_mask = Some out
  ∧ shape out 2 2.
Proof.
  split; [reflexivity|].
  apply (interpolate_holes_keeps_shape Examples.to_f32 Examples.z_nonzero
           Examples.f32_isnan (Some 0%Q) Examples.griddata_outside
           Examples.holes_image Examples.holes_mask _ 2 2);
    first [reflexivity | solve_shape].
Defined.

Lemma interpolate_holes_no_nan_witness :
  let out := [[Some 5%Q; Some 0%Q]; [Some 7%Q; Some 9%Q]] in
  interpolate_holes_numpy Examples.to_f32 Examples.z_nonzero
    Examples.f32_isnan (Some 0%Q) Examples.griddata_outside
    Examples.holes_image Examples.holes_mask = Some out
  ∧ at2 out 0 1 = Some (Some 0%Q)
  ∧ Examples.f32_isnan (Some 0%Q) = false.
Proof.
  split; [reflexivity|]. split; [reflexivity|].
  apply (interpolate_holes_no_nan Examples.to_f32 Examples.z_nonzero
           Examples.f32_isnan (Some 0%Q) Examples.griddata_outside
           Examples.holes_image Examples.holes_mask
           [[Some 5%Q; Some 0%Q]; [Some 7%Q; Some 9%Q]] 0 1 (Some 0%Q));
    reflexivity.
Defined.

Lemma interpolate_holes_fills_in_order_witness :
  ∃ vals,
    Examples.griddata_outside [(0, 0); (1, 0); (1, 1)]
      [Some 5%Q; Some 7%Q; Some 9%Q] [(0, 1)] = Some vals
    ∧ [Some 0%Q]
      = fix_nan Examples.f32_isnan (Some 0%Q) <$> vals.
Proof.
  apply (interpolate_holes_fills_in_order Examples.to_f32 Examples.z_nonzero
           Examples.f32_isnan (Some 0%Q) Examples.griddata_outside
           Examples.holes_image Examples.holes_mask
           [[Some 5%Q; Some 0%Q]; [Some 7%Q; Some 9%Q]]);
    reflexivity.
Defined.

Lemma interpolate_holes_shape_mismatch_witness :
  interpolate_holes_numpy Examples.to_f32 Examples.z_nonzero
    Examples.f32_isnan (Some 0%Q) Examples.griddata_outside
    Examples.holes_image [[1; 0; 1]; [1; 1; 1]]%Z = None.
Proof.
  apply (interpolate_holes_shape_mismatch Examples.to_f32 Examples.z_nonzero
           Examples.f32_isnan (Some 0%Q) Examples.griddata_outside
           Examples.holes_image [[1; 0; 1]; [1; 1; 1]]%Z 2 2 2 3);
    first [solve_shape | right; split; lia].
Defined.

(** ** The cast to float32 before the threshold (line 164) *)

Lemma round_half_even_le q n :
  (q <= inject_Z n)%Q → (round_half_even q ≤ n)%Z.
Proof.
  intros Hq. unfold round_half_even.
  pose proof (Qfloor_le q) as Hlo. pose proof (Qlt_floor q) as Hhi.
  assert (Hf : (Qfloor q ≤ n)%Z).
  { rewrite Zle_Qle. by eapply Qle_trans. }
  destruct (Z.eq_dec (Qfloor q) n) as [E|E].
  - rewrite E in *.
    destruct (Qcompare_spec (q - inject_Z n) (1 # 2)) as [H|H|H];
      [exfalso; lra|lia|exfalso; lra].
  - destruct (_ ?= _)%Q; [destruct (Z.even (Qfloor q))|..]; lia.
Qed.

Lemma round_half_even_ge q n :
  (inject_Z n <= q)%Q → (n ≤ round_half_even q)%Z.
Proof.
  intros Hq. unfold round_half_even.
  assert (Hf : (n ≤ Qfloor q)%Z).
  { rewrite <- (Qfloor_Z n). by apply Qfloor_resp_le. }
  destruct (_ ?= _)%Q; [destruct (Z.even (Qfloor q))|..]; lia.
Qed.

Lemma round_half_even_gt_even q n :
  Z.even n = true →
  (n < round_half_even q)%Z ↔ (inject_Z n + (1 # 2) < q)%Q.
Proof.
  intros Hev. unfold round_half_even.
  pose proof (Qfloor_le q) as Hlo. pose proof (Qlt_floor q) as Hhi.
  pose proof Hhi as Hhi'.
  rewrite inject_Z_plus in Hhi. change (inject_Z 1) with 1%Q in Hhi.
  destruct (Z.lt_trichotomy (Qfloor q) n) as [Hlt|[Heq|Hgt]].
  - assert (Hq : (q < inject_Z n)%Q).
    { eapply Qlt_le_trans; [exact Hhi'|]. rewrite <- Zle_Qle. lia. }
    split; [|intros; exfalso; lra].
    intros H. exfalso. revert H.
    destruct (_ ?= _)%Q; [destruct (Z.even (Qfloor q))|..]; lia.
  - rewrite Heq in *.
    destruct (Qcompare_spec (q - inject_Z n) (1 # 2)) as [E|E|E].
    + rewrite Hev. split; [lia|]. intros; exfalso; lra.
    + split; [lia|]. intros; exfalso; lra.
    + split; [intros; lra|lia].
  - assert (Hq : (inject_Z n + 1 <= q)%Q).
    { eapply Qle_trans; [|exact Hlo].
      change 1%Q with (inject_Z 1). rewrite <- inject_Z_plus, <- Zle_Qle. lia. }
    split; [intros; lra|].
    destruct (_ ?= _)%Q; [destruct (Z.even (Qfloor q))|..]; lia.
Qed.

Lemma pow2_pos e : (0 < 2 ^ e)%Q.
Proof. by apply Qpower_0_lt. Qed.

Lemma pow2_add a b : (2 ^ (a + b) == 2 ^ a * 2 ^ b)%Q.
Proof. by apply Qpower_plus. Qed.

Lemma pow2_le a b : (a ≤ b)%Z → (2 ^ a <= 2 ^ b)%Q.
Proof. intros H. by apply Qpower_le_compat_l. Qed.

Lemma pow2_inject n : (0 ≤ n)%Z → (inject_Z (2 ^ n) == 2 ^ n)%Q.
Proof. intros H. by rewrite Zpower_Qpower. Qed.

Lemma ilog2_spec a :
  (0 < a)%Q → (2 ^ ilog2 a <= a)%Q ∧ (a < 2 ^ (ilog2 a + 1))%Q.
Proof.
  intros Ha. unfold ilog2. destruct a as [n d].
  assert (Hn : (0 < n)%Z).
  { unfold Qlt in Ha. simpl in Ha. lia. }
  cbn [Qnum Qden].
  pose proof (Z.log2_spec n Hn) as [Hn1 Hn2].
  pose proof (Z.log2_spec (Z.pos d) ltac:(lia)) as [Hd1 Hd2].
  pose proof (Z.log2_nonneg n) as Hln.
  pose proof (Z.log2_nonneg (Z.pos d)) as Hld.
  set (ln := Z.log2 n) in *. set (ld := Z.log2 (Z.pos d)) in *.
  (* the rational n/d against powers of two *)
  assert (Hq : (n # d == inject_Z n / inject_Z (Z.pos d))%Q).
  { by rewrite Qmake_Qdiv. }
  assert (Hdpos : (0 < inject_Z (Z.pos d))%Q).
  { change 0%Q with (inject_Z 0). rewrite <- Zlt_Qlt. lia. }
  assert (Hup : (n # d < 2 ^ (ln - ld + 1))%Q).
  { rewrite Hq. apply Qlt_shift_div_r; [done|].
    eapply Qlt_le_trans with (inject_Z (2 ^ Z.succ ln)).
    - rewrite <- Zlt_Qlt. lia.
    - rewrite pow2_inject by lia.
      replace (Z.succ ln) with ((ln - ld + 1) + ld)%Z by lia.
      rewrite pow2_add. apply Qmult_le_l; [apply pow2_pos|].
      rewrite <- pow2_inject by lia. rewrite <- Zle_Qle. lia. }
  assert (Hlo : (2 ^ (ln - ld - 1) <= n # d)%Q).
  { rewrite Hq. apply Qle_shift_div_l; [done|].
    eapply Qle_trans with (inject_Z (2 ^ ln)).
    - rewrite pow2_inject by lia.
      replace ln with ((ln - ld - 1) + Z.succ ld)%Z at 2 by lia.
      rewrite pow2_add. apply Qmult_le_l; [apply pow2_pos|].
      rewrite <- pow2_inject by lia. rewrite <- Zle_Qle. lia.
    - rewrite <- Zle_Qle. lia. }
  destruct (Qle_bool (2 ^ (ln - ld)) (n # d)) eqn:E.
  - apply Qle_bool_iff in E. done.
  - split; [done|].
    replace (ln - ld - 1 + 1)%Z with (ln - ld)%Z by lia.
    apply Qnot_le_lt. intros H. apply Qle_bool_iff in H. congruence.
Qed.

Lemma gt_half_comp x y : (x == y)%Q → gt_half x = gt_half y.
Proof. intros H. unfold gt_half, Qltb. by rewrite H. Qed.

Lemma gt_half_true v : gt_half v = true ↔ (1 # 2 < v)%Q.
Proof. apply Qltb_lt. Qed.

Lemma gt_half_false_iff v : gt_half v = false ↔ (v <= 1 # 2)%Q.
Proof.
  rewrite <- not_true_iff_false, gt_half_true. split.
  - apply Qnot_lt_le.
  - intros H1 H2. by apply (Qlt_not_le _ _ H2).
Qed.

Lemma float32_abs_nonneg a : (0 < a)%Q → (0 <= float32_abs a)%Q.
Proof.
  intros Ha. unfold float32_abs.
  set (u := (2 ^ (Z.max (ilog2 a) (-126) - 23))%Q).
  assert (Hu : (0 < u)%Q) by apply pow2_pos.
  destruct (Qle_bool _ _); [apply Qlt_le_weak, pow2_pos|].
  apply Qmult_le_0_compat; [|by apply Qlt_le_weak].
  change 0%Q with (inject_Z 0). rewrite <- Zle_Qle.
  apply round_half_even_ge. simpl.
  apply Qle_shift_div_l; [done|]. rewrite Qmult_0_l. by apply Qlt_le_weak.
Qed.

Lemma float32_abs_gt_half a :
  (0 < a)%Q →
  gt_half (float32_abs a) = true ↔ ((1 # 2) + (1 # 2 ^ 25) < a)%Q.
Proof.
  intros Ha. destruct (ilog2_spec a Ha) as [Hlo Hhi].
  unfold float32_abs.
  set (e := ilog2 a) in *. set (e' := Z.max e (-126)).
  set (u := (2 ^ (e' - 23))%Q).
  assert (Hu : (0 < u)%Q) by apply pow2_pos.
  set (k := round_half_even (a / u)).
  destruct (Z_lt_le_dec e 0) as [Hneg|Hpos].
  - (* a < 1: the rounded value is at most 1, no overflow *)
    assert (He' : (e' ≤ -1)%Z) by lia.
    assert (Ha1 : (a < 2 ^ (e' + 1))%Q).
    { eapply Qlt_le_trans; [exact Hhi|]. apply pow2_le. lia. }
    assert (Hu24 : (inject_Z (2 ^ 24) * u == 2 ^ (e' + 1))%Q).
    { unfold u. rewrite pow2_inject by lia. rewrite <- pow2_add.
      by replace (24 + (e' - 23))%Z with (e' + 1)%Z by lia. }
    assert (Hk : (k ≤ 2 ^ 24)%Z).
    { apply round_half_even_le. apply Qle_shift_div_r; [done|].
      rewrite Hu24. by apply Qlt_le_weak. }
    assert (Hr : (inject_Z k * u <= 2 ^ (e' + 1))%Q).
    { rewrite <- Hu24. apply Qmult_le_r; [done|]. by rewrite <- Zle_Qle. }
    assert (Hone : (2 ^ (e' + 1) <= 1)%Q).
    { change 1%Q with (2 ^ 0)%Q. apply pow2_le. lia. }
    assert (Hsat : Qle_bool (2 ^ 128) (inject_Z k * u) = false).
    { destruct (Qle_bool _ _) eqn:E; [|done]. apply Qle_bool_iff in E.
      exfalso. assert ((2 ^ 128 <= 1)%Q) by (do 2 (eapply Qle_trans; [|done]);
        done). revert H. by vm_compute. }
    rewrite Hsat.
    destruct (Z.eq_dec e (-1)%Z) as [E|E].
    + (* 1/2 <= a < 1: the spacing is 2 ** -24 *)
      assert (Hue : u = (1 # 2 ^ 24)%Q).
      { unfold u, e'. rewrite E. reflexivity. }
      rewrite gt_half_true.
      assert (Hk' : (2 ^ 23 < k)%Z ↔ (inject_Z (2 ^ 23) + (1 # 2) < a / u)%Q)
        by (by apply round_half_even_gt_even).
      assert (Hdiv : (a / u == a * inject_Z (2 ^ 24))%Q).
      { rewrite Hue. unfold Qdiv. reflexivity. }
      rewrite Hdiv in Hk'. rewrite Hue.
      split.
      * intros Hlt.
        assert (Hk2 : (2 ^ 23 < k)%Z).
        { rewrite Zlt_Qlt.
          apply (Qmult_lt_r _ _ (1 # 2 ^ 24)); [done|].
          eapply Qle_lt_trans; [|exact Hlt]. by vm_compute. }
        apply Hk' in Hk2.
        apply (Qmult_lt_r _ _ (inject_Z (2 ^ 24))); [done|].
        eapply Qle_lt_trans; [|exact Hk2]. by vm_compute.
      * intros Hlt.
        assert (Hk2 : (2 ^ 23 < k)%Z).
        { apply Hk'.
          assert (Hp : (0 < inject_Z (2 ^ 24))%Q) by done.
          eapply Qle_lt_trans; [|exact (proj2 (Qmult_lt_r _ _ _ Hp) Hlt)].
          by vm_compute. }
        assert (Hk3 : (inject_Z (2 ^ 23 + 1) <= inject_Z k)%Q)
          by (rewrite <- Zle_Qle; lia).
        assert (Hp : (0 < 1 # 2 ^ 24)%Q) by done.
        eapply Qlt_le_trans; [|exact (proj2 (Qmult_le_r _ _ _ Hp) Hk3)].
        by vm_compute.
    + (* a < 1/2: the rounded value is at most 1/2 *)
      assert (He2 : (e' ≤ -2)%Z) by lia.
      assert (Hhalf : (2 ^ (e' + 1) <= 1 # 2)%Q).
      { eapply Qle_trans; [apply (pow2_le _ (-1)); lia|]. by vm_compute. }
      split.
      * intros Hgt. apply gt_half_true in Hgt. exfalso.
        apply (Qlt_not_le _ _ Hgt). eapply Qle_trans; [exact Hr|exact Hhalf].
      * intros Hlt. exfalso.
        assert ((a < 1 # 2)%Q) by (eapply Qlt_le_trans; [exact Ha1|exact Hhalf]).
        assert ((1 # 2 < a)%Q).
        { eapply Qle_lt_trans; [|exact Hlt]. by vm_compute. }
        by apply (Qlt_irrefl a); eapply Qlt_trans.
  - (* 1 <= a: the rounded value is at least 1 *)
    assert (He' : e' = e) by lia.
    assert (Hu23 : (inject_Z (2 ^ 23) * u == 2 ^ e)%Q).
    { unfold u. rewrite He', pow2_inject by lia. rewrite <- pow2_add.
      by replace (23 + (e - 23))%Z with e by lia. }
    assert (Hk : (2 ^ 23 ≤ k)%Z).
    { apply round_half_even_ge. apply Qle_shift_div_l; [done|].
      by rewrite Hu23. }
    assert (Hone : (1 <= 2 ^ e)%Q).
    { change 1%Q with (2 ^ 0)%Q. by apply pow2_le. }
    assert (Hr : (1 <= inject_Z k * u)%Q).
    { eapply Qle_trans; [exact Hone|]. rewrite <- Hu23.
      apply Qmult_le_r; [done|]. by rewrite <- Zle_Qle. }
    split.
    + intros _. eapply Qlt_le_trans; [|exact Hlo].
      eapply Qlt_le_trans; [|exact Hone]. by vm_compute.
    + intros _. apply gt_half_true.
      destruct (Qle_bool _ _); [by vm_compute|].
      eapply Qlt_le_trans; [|exact Hr]. by vm_compute.
Qed.

(** Casting to float32 and comparing with 0.5 is comparing the number
    itself with 0.5 + 2 ** -25, the midpoint between 0.5 and the next
    float32, which rounds down to 0.5. *)
Lemma float32_gt_half v :
  gt_half (np_float32 v) = true ↔ ((1 # 2) + (1 # 2 ^ 25) < v)%Q.
Proof.
  unfold np_float32.
  destruct (Qeq_bool v 0) eqn:E0.
  - apply Qeq_bool_eq in E0. split; [done|].
    intros H. rewrite E0 in H. revert H. by vm_compute.
  - apply Qeq_bool_neq in E0.
    rewrite (gt_half_comp _ _ (Qred_correct _)).
    destruct (Qle_bool 0 v) eqn:Es.
    + apply Qle_bool_iff in Es.
      assert (Hv : (0 < v)%Q).
      { apply Qnot_le_lt. intros H. apply E0. by apply Qle_antisym. }
      assert (Ha : (0 < Qabs v)%Q) by (by rewrite Qabs_pos).
      rewrite (float32_abs_gt_half _ Ha). by rewrite Qabs_pos.
    + assert (Hv : (v < 0)%Q).
      { apply Qnot_le_lt. intros H. apply Qle_bool_iff in H. congruence. }
      assert (Ha : (0 < Qabs v)%Q).
      { rewrite Qabs_neg by (by apply Qlt_le_weak). lra. }
      pose proof (float32_abs_nonneg _ Ha) as Hr.
      split.
      * intros H. apply gt_half_true in H. exfalso. lra.
      * intros H. exfalso.
        assert ((0 < (1 # 2) + (1 # 2 ^ 25))%Q) by (by vm_compute). lra.
Qed.

Lemma input_mask_threshold valid :
  input_mask valid = amap (Qltb ((1 # 2) + (1 # 2 ^ 25))) valid.
Proof.
  unfold input_mask. apply amap_ext. intros v.
  apply Bool.eq_iff_eq_true. by rewrite float32_gt_half, Qltb_lt.
Qed.

(** A validity of 0.500000001 is above 0.5 but rounds to 0.5 in float32:
    the pixel is invalid, and with resampling skipped its flow is returned
    as it is. *)
Example float32_rounds_down :
  gt_half (500000001 # 1000000000) = true
  ∧ gt_half (np_float32 (500000001 # 1000000000)) = false
  ∧ spatial_transform (L := Reference.cv2)
      PhotoExamples.cfg_small Examples.d_plain
      ([[(1, 2, 3)%Z]], [[(4, 5, 6)%Z]], [[(1, 1)%Q]],
       [[(500000001 # 1000000000)%Q]])
    = Some ([[(1, 2, 3)%Z]], [[(4, 5, 6)%Z]], [[(1, 1)%Q]], [[false]]).
Proof. split; [|split]; by vm_compute. Qed.
